(** * Prototypes, closures and local-variable lookup (tools/lua/lfunc.cpp)

    A shallow embedding of [luaF_newclosure], [luaF_newproto],
    [luaF_freeproto], [luaF_freeclosure] and [luaF_getlocalname] over an
    explicit model of the interpreter state [L] and of the C heap, followed
    by the properties of the weight counter, of the two object chains and of
    the debug-record scan. *)

From stdpp Require Import gmap strings list fin_maps.
From Stdlib Require Import ZArith Lia Strings.Byte.

Local Open Scope Z_scope.

(** ** Machine integers

    A C integer type is a width and a signedness; [wrap] brings a
    mathematical integer back into the type (two's complement). *)

Record IntTy := { ity_bits : positive; ity_signed : bool }.

Definition modulus (t : IntTy) : Z := 2 ^ Z.pos (ity_bits t).

Definition wrap (t : IntTy) (z : Z) : Z :=
  if ity_signed t
  then (z + modulus t / 2) mod modulus t - modulus t / 2
  else z mod modulus t.

Definition in_range (t : IntTy) (z : Z) : Prop :=
  if ity_signed t
  then - (modulus t / 2) <= z < modulus t / 2
  else 0 <= z < modulus t.

Definition int32 : IntTy := {| ity_bits := 32; ity_signed := true |}.

(** ** Objects (lobject.h, as far as this file uses them) *)

Definition addr := positive.

(** A C pointer: [None] is NULL. *)
Abbreviation ptr := (option addr).

(** Modelled from the spec: TaggedString of lobject.h, "an interned name";
    only its characters [str] are read here. *)
Record TaggedString := { str : string }.

(** Modelled from the spec: LocVar of lobject.h. A register record carries
    a name, an unregister record has a NULL [varname]; the array ends with
    a record of [line = -1]. *)
Record LocVar := { varname : option TaggedString; line : Z }.

(** Modelled from the spec: the object header GCnode of lobject.h, "one
    forward-only ownership link (next)". *)
Record GCnode := { next : ptr }.

(** Modelled from the spec: TProtoFunc of lobject.h, with the fields
    luaF_newproto assigns. *)
Record TProtoFunc := {
  pf_head : GCnode;
  consts : ptr;
  nconsts : Z;
  code : ptr;
  lineDefined : Z;
  fileName : option TaggedString;
  locvars : ptr
}.

(** Modelled from the spec: Closure of lobject.h. Its trailing array of
    elements is neither read nor written by this file; the header and the
    element count are kept. *)
Record Closure := { cl_head : GCnode; nelems : Z }.

(** Modelled from the spec: the part of lua_State (lstate.h) used here, the
    two registry roots and the weight counter. *)
Record lua_State := { rootproto : GCnode; rootcl : GCnode; nblocks : Z }.

(** The two weights (macros of lfunc.cpp; their argument is ignored). *)
Definition gcsizeproto (p : addr) : Z := 5.
Definition gcsizeclosure (c : addr) : Z := 1.

Section Lfunc.

(** Declarations that live outside this file. *)
Variable TObject : Type.             (* lobject.h *)
Variable nblocks_ty : IntTy.         (* C type of L->nblocks, lstate.h *)
Variable sizeof_Closure : Z.
Variable sizeof_TObject : Z.
Variable sizeof_TProtoFunc : Z.

(** ** The heap

    Memory is typed: a pointer of type [T*] addresses the region of [T]
    blocks, so each region is a finite map of its own. *)

Record Memory := {
  mem_proto : gmap addr TProtoFunc;
  mem_closure : gmap addr Closure;
  mem_code : gmap addr (list Z);
  mem_consts : gmap addr (list TObject);
  mem_locvars : gmap addr (list LocVar)
}.

Record World := { L : lua_State; heap : Memory }.

Record region (T : Type) := {
  rget : Memory -> gmap addr T;
  rset : gmap addr T -> Memory -> Memory
}.
Arguments rget {T}.
Arguments rset {T}.

Definition R_proto : region TProtoFunc :=
  {| rget := mem_proto;
     rset := fun m h => {| mem_proto := m; mem_closure := mem_closure h;
                           mem_code := mem_code h; mem_consts := mem_consts h;
                           mem_locvars := mem_locvars h |} |}.

Definition R_closure : region Closure :=
  {| rget := mem_closure;
     rset := fun m h => {| mem_proto := mem_proto h; mem_closure := m;
                           mem_code := mem_code h; mem_consts := mem_consts h;
                           mem_locvars := mem_locvars h |} |}.

Definition R_code : region (list Z) :=
  {| rget := mem_code;
     rset := fun m h => {| mem_proto := mem_proto h; mem_closure := mem_closure h;
                           mem_code := m; mem_consts := mem_consts h;
                           mem_locvars := mem_locvars h |} |}.

Definition R_consts : region (list TObject) :=
  {| rget := mem_consts;
     rset := fun m h => {| mem_proto := mem_proto h; mem_closure := mem_closure h;
                           mem_code := mem_code h; mem_consts := m;
                           mem_locvars := mem_locvars h |} |}.

Definition R_locvars : region (list LocVar) :=
  {| rget := mem_locvars;
     rset := fun m h => {| mem_proto := mem_proto h; mem_closure := mem_closure h;
                           mem_code := mem_code h; mem_consts := mem_consts h;
                           mem_locvars := m |} |}.

Definition set_heap (h : Memory) (w : World) : World :=
  {| L := L w; heap := h |}.

Definition set_L (l : lua_State) (w : World) : World :=
  {| L := l; heap := heap w |}.

(** ** Computations

    Every function of the file runs on the global state and the heap; it
    returns, or raises the allocator's fatal error, or goes through an
    invalid pointer. [OutOfFuel] only bounds the loops of the model. *)

Inductive outcome (A : Type) : Type :=
| Ok (a : A) (w : World)
| Fatal
| Undefined
| OutOfFuel.
Arguments Ok {A}.
Arguments Fatal {A}.
Arguments Undefined {A}.
Arguments OutOfFuel {A}.

Definition M (A : Type) : Type := World -> outcome A.

#[global] Instance M_ret : MRet M := fun A a w => Ok a w.

#[global] Instance M_bind : MBind M := fun A B f m w =>
  match m w with
  | Ok a w' => f a w'
  | Fatal => Fatal
  | Undefined => Undefined
  | OutOfFuel => OutOfFuel
  end.

Definition undefined {A} : M A := fun _ => Undefined.

Definition load {T} (r : region T) (p : ptr) : M T := fun w =>
  match p with
  | None => Undefined
  | Some a =>
      match rget r (heap w) !! a with
      | Some v => Ok v w
      | None => Undefined
      end
  end.

Definition store {T} (r : region T) (a : addr) (v : T) : M unit := fun w =>
  match rget r (heap w) !! a with
  | Some _ => Ok tt (set_heap (rset r (<[a := v]> (rget r (heap w))) (heap w)) w)
  | None => Undefined
  end.

(** ** The allocator (lmem.cpp)

    [luaM_oracle] stands for the C library: for a request it answers
    failure or the address it would like to hand out; [junk] is whatever
    the uninitialised block happens to contain. *)

Variable luaM_oracle : Z -> Memory -> option addr.
Variable junk_proto : addr -> TProtoFunc.
Variable junk_closure : addr -> Closure.

(** The block handed out: the oracle's choice when that address is free,
    some free address otherwise. *)
Definition pick {T} (m : gmap addr T) (hint : addr) : addr :=
  if decide (hint ∈ dom m) then fresh (dom m) else hint.

(** Modelled from the spec: luaM_malloc of lmem.cpp, "a fallible raw-memory
    allocation facility" whose failure is fatal; a successful call returns
    a block that was not allocated before. *)
Definition luaM_malloc {T} (r : region T) (size : Z) (junk : addr -> T) : M addr :=
  fun w =>
    match luaM_oracle size (heap w) with
    | None => Fatal
    | Some hint =>
        let m := rget r (heap w) in
        let a := pick m hint in
        Ok a (set_heap (rset r (<[a := junk a]> m) (heap w)) w)
    end.

(** Modelled from the spec: luaM_free of lmem.cpp releases one block; a
    NULL argument is accepted and does nothing (fresh prototypes are torn
    down with all three buffers NULL). *)
Definition luaM_free {T} (r : region T) (p : ptr) : M unit := fun w =>
  match p with
  | None => Ok tt w
  | Some a =>
      match rget r (heap w) !! a with
      | Some _ => Ok tt (set_heap (rset r (delete a (rget r (heap w))) (heap w)) w)
      | None => Undefined
      end
  end.

(** ** Field assignments *)

Definition set_next (p : ptr) (n : GCnode) : GCnode := {| next := p |}.

Definition set_pf_head (n : GCnode) (f : TProtoFunc) : TProtoFunc :=
  {| pf_head := n; consts := consts f; nconsts := nconsts f; code := code f;
     lineDefined := lineDefined f; fileName := fileName f; locvars := locvars f |}.

Definition set_consts (p : ptr) (f : TProtoFunc) : TProtoFunc :=
  {| pf_head := pf_head f; consts := p; nconsts := nconsts f; code := code f;
     lineDefined := lineDefined f; fileName := fileName f; locvars := locvars f |}.

Definition set_nconsts (n : Z) (f : TProtoFunc) : TProtoFunc :=
  {| pf_head := pf_head f; consts := consts f; nconsts := n; code := code f;
     lineDefined := lineDefined f; fileName := fileName f; locvars := locvars f |}.

Definition set_code (p : ptr) (f : TProtoFunc) : TProtoFunc :=
  {| pf_head := pf_head f; consts := consts f; nconsts := nconsts f; code := p;
     lineDefined := lineDefined f; fileName := fileName f; locvars := locvars f |}.

Definition set_lineDefined (n : Z) (f : TProtoFunc) : TProtoFunc :=
  {| pf_head := pf_head f; consts := consts f; nconsts := nconsts f; code := code f;
     lineDefined := n; fileName := fileName f; locvars := locvars f |}.

Definition set_fileName (s : option TaggedString) (f : TProtoFunc) : TProtoFunc :=
  {| pf_head := pf_head f; consts := consts f; nconsts := nconsts f; code := code f;
     lineDefined := lineDefined f; fileName := s; locvars := locvars f |}.

Definition set_locvars (p : ptr) (f : TProtoFunc) : TProtoFunc :=
  {| pf_head := pf_head f; consts := consts f; nconsts := nconsts f; code := code f;
     lineDefined := lineDefined f; fileName := fileName f; locvars := p |}.

Definition set_cl_head (n : GCnode) (c : Closure) : Closure :=
  {| cl_head := n; nelems := nelems c |}.

Definition set_nelems (n : Z) (c : Closure) : Closure :=
  {| cl_head := cl_head c; nelems := n |}.

Definition set_rootproto (n : GCnode) (l : lua_State) : lua_State :=
  {| rootproto := n; rootcl := rootcl l; nblocks := nblocks l |}.

Definition set_rootcl (n : GCnode) (l : lua_State) : lua_State :=
  {| rootproto := rootproto l; rootcl := n; nblocks := nblocks l |}.

Definition set_nblocks (n : Z) (l : lua_State) : lua_State :=
  {| rootproto := rootproto l; rootcl := rootcl l; nblocks := n |}.

(** [p->field = v] on a block of region [r]. *)
Definition assign {T} (r : region T) (p : addr) (upd : T -> T) : M unit :=
  x ← load r (Some p);
  store r p (upd x).

(** [L->nblocks += k] (and [-=] with a negative [k]); the sum is brought
    back into the counter's type, a signed counter wrapping like an
    unsigned one. *)
Definition nblocks_add (k : Z) : M unit := fun w =>
  Ok tt (set_L (set_nblocks (wrap nblocks_ty (nblocks (L w) + k)) (L w)) w).

(** ** The object lists (lobject.cpp) *)

(** [&(L->rootproto)] and [&(L->rootcl)]. *)
Inductive rootref := Root_proto | Root_cl.

(** [(GCnode * )f] for a prototype and [(GCnode * )c] for a closure. *)
Inductive gcref := GC_proto (f : addr) | GC_closure (c : addr).

Definition gcref_addr (n : gcref) : addr :=
  match n with GC_proto f => f | GC_closure c => c end.

Definition root_node (root : rootref) : M GCnode := fun w =>
  Ok (match root with
      | Root_proto => rootproto (L w)
      | Root_cl => rootcl (L w)
      end) w.

Definition root_assign (root : rootref) (upd : GCnode -> GCnode) : M unit := fun w =>
  Ok tt (set_L (match root with
                | Root_proto => set_rootproto (upd (rootproto (L w))) (L w)
                | Root_cl => set_rootcl (upd (rootcl (L w))) (L w)
                end) w).

Definition node_assign (node : gcref) (upd : GCnode -> GCnode) : M unit :=
  match node with
  | GC_proto f => assign R_proto f (fun x => set_pf_head (upd (pf_head x)) x)
  | GC_closure c => assign R_closure c (fun x => set_cl_head (upd (cl_head x)) x)
  end.

(** Modelled from the spec: luaO_insertlist of lobject.cpp "links [the new
    object] at the head of the registry's list". *)
Definition luaO_insertlist (root : rootref) (node : gcref) : M unit :=
  r ← root_node root;
  node_assign node (set_next (next r));;
  root_assign root (set_next (Some (gcref_addr node))).

(** ** Creation *)

Definition luaF_newclosure (nelems : Z) : M addr :=
  c ← luaM_malloc R_closure (sizeof_Closure + nelems * sizeof_TObject) junk_closure;
  luaO_insertlist Root_cl (GC_closure c);;
  nblocks_add (gcsizeclosure c);;
  assign R_closure c (set_nelems nelems);;
  mret c.

Definition luaF_newproto : M addr :=
  f ← luaM_malloc R_proto sizeof_TProtoFunc junk_proto;
  assign R_proto f (set_code None);;
  assign R_proto f (set_lineDefined 0);;
  assign R_proto f (set_fileName None);;
  assign R_proto f (set_consts None);;
  assign R_proto f (set_nconsts 0);;
  assign R_proto f (set_locvars None);;
  luaO_insertlist Root_proto (GC_proto f);;
  nblocks_add (gcsizeproto f);;
  mret f.

(** ** Teardown *)

Definition freefunc (f : addr) : M unit :=
  x ← load R_proto (Some f);
  luaM_free R_code (code x);;
  x ← load R_proto (Some f);
  luaM_free R_locvars (locvars x);;
  x ← load R_proto (Some f);
  luaM_free R_consts (consts x);;
  luaM_free R_proto (Some f).

Definition out_of_fuel {A} : M A := fun _ => OutOfFuel.

Fixpoint freeproto_loop (fuel : nat) (l : ptr) : M unit :=
  match l with
  | None => mret tt
  | Some f =>
      match fuel with
      | O => out_of_fuel
      | S fuel' =>
          x ← load R_proto (Some f);
          let next := next (pf_head x) in
          nblocks_add (- gcsizeproto f);;
          freefunc f;;
          freeproto_loop fuel' next
      end
  end.

(** Every turn of the loop releases one prototype, so one more turn than
    there are prototypes is fuel enough (see [luaF_freeproto_fuel]). *)
Definition luaF_freeproto (l : ptr) : M unit := fun w =>
  freeproto_loop (S (size (mem_proto (heap w)))) l w.

Fixpoint freeclosure_loop (fuel : nat) (l : ptr) : M unit :=
  match l with
  | None => mret tt
  | Some c =>
      match fuel with
      | O => out_of_fuel
      | S fuel' =>
          x ← load R_closure (Some c);
          let next := next (cl_head x) in
          nblocks_add (- gcsizeclosure c);;
          luaM_free R_closure (Some c);;
          freeclosure_loop fuel' next
      end
  end.

Definition luaF_freeclosure (l : ptr) : M unit := fun w =>
  freeclosure_loop (S (size (mem_closure (heap w)))) l w.

(** ** Local-variable lookup *)

(** One turn of the loop body of luaF_getlocalname on record [lv];
    [count] is an int32. *)
Definition getlocalname_body (local_number : Z) (lv : LocVar)
    (st : Z * option string) : Z * option string :=
  match varname lv with
  | Some ts =>  (* register *)
      let count := wrap int32 (fst st + 1) in
      (count, if count =? local_number then Some (str ts) else snd st)
  | None =>  (* unregister *)
      let count := wrap int32 (fst st - 1) in
      (count, if count <? local_number then None else snd st)
  end.

(** The [for] loop: [lv] is the part of the array from the current
    pointer on; running off the array is an invalid read ([None]). *)
Fixpoint getlocalname_loop (lv : list LocVar) (local_number at_line : Z)
    (st : Z * option string) : option (option string) :=
  match lv with
  | [] => None
  | r :: lv' =>
      if negb (line r =? -1) && (line r <? at_line)
      then getlocalname_loop lv' local_number at_line
             (getlocalname_body local_number r st)
      else Some (snd st)
  end.

Definition luaF_getlocalname (func : ptr) (local_number at_line : Z)
    : M (option string) :=
  f ← load R_proto func;
  match locvars f with
  | None => mret None
  | Some _ =>
      lv ← load R_locvars (locvars f);
      match getlocalname_loop lv local_number at_line (0, None) with
      | Some name => mret name
      | None => undefined
      end
  end.

(** ** Vocabulary of the statements *)

(** [chain hd P m p l]: following [next] from [p] in region [m] visits
    exactly the blocks [l], pairwise distinct, each satisfying [P], and
    then reaches NULL. *)
Inductive chain {T} (hd : T -> GCnode) (P : T -> Prop) (m : gmap addr T)
    : ptr -> list addr -> Prop :=
| chain_nil : chain hd P m None []
| chain_cons a x l :
    m !! a = Some x -> P x -> a ∉ l ->
    chain hd P m (next (hd x)) l ->
    chain hd P m (Some a) (a :: l).

(** A prototype as luaF_newproto leaves it: no buffer attached. *)
Definition bare (x : TProtoFunc) : Prop :=
  code x = None /\ locvars x = None /\ consts x = None.

(** A creation request, and a sequence of them run in order. *)
Inductive creation := NewProto | NewClosure (nelems : Z).

Definition create (c : creation) : M unit :=
  match c with
  | NewProto => luaF_newproto;; mret tt
  | NewClosure n => luaF_newclosure n;; mret tt
  end.

Fixpoint create_all (cs : list creation) : M unit :=
  match cs with
  | [] => mret tt
  | c :: cs' => create c;; create_all cs'
  end.

(** The weight the counter gains by a sequence of creations. *)
Fixpoint total_weight (cs : list creation) : Z :=
  match cs with
  | [] => 0
  | NewProto :: cs' => 5 + total_weight cs'
  | NewClosure _ :: cs' => 1 + total_weight cs'
  end.

(** Prototype [func] of world [w] carries the debug-record array [lv]. *)
Definition has_locvars (w : World) (func : addr) (lv : list LocVar) : Prop :=
  exists f a, mem_proto (heap w) !! func = Some f /\ locvars f = Some a /\
              mem_locvars (heap w) !! a = Some lv.

(** A record at which the scan for [at_line] stops. *)
Definition stops (at_line : Z) (r : LocVar) : Prop :=
  line r = -1 \/ at_line <= line r.

(** The records in front of the first one that stops the scan. *)
Fixpoint scanned (at_line : Z) (lv : list LocVar) : list LocVar :=
  match lv with
  | [] => []
  | r :: lv' =>
      if negb (line r =? -1) && (line r <? at_line)
      then r :: scanned at_line lv'
      else []
  end.

(** The state [(count, varname)] after the loop body ran on [lv] in order. *)
Definition scan_state (local_number : Z) (lv : list LocVar) : Z * option string :=
  foldl (fun st r => getlocalname_body local_number r st) (0, None) lv.

(** What a teardown may do to the world besides the counter: release
    blocks. Roots stay, surviving blocks keep their contents, nothing new
    appears. *)
Definition released (w w' : World) : Prop :=
  rootproto (L w') = rootproto (L w) /\
  rootcl (L w') = rootcl (L w) /\
  mem_proto (heap w') ⊆ mem_proto (heap w) /\
  mem_closure (heap w') ⊆ mem_closure (heap w) /\
  mem_code (heap w') ⊆ mem_code (heap w) /\
  mem_consts (heap w') ⊆ mem_consts (heap w) /\
  mem_locvars (heap w') ⊆ mem_locvars (heap w).

(** The closure side of the world. *)
Definition same_closures (w w' : World) : Prop :=
  mem_closure (heap w') = mem_closure (heap w).

(** The prototype side of the world: prototypes and their buffers. *)
Definition same_protos (w w' : World) : Prop :=
  mem_proto (heap w') = mem_proto (heap w) /\
  mem_code (heap w') = mem_code (heap w) /\
  mem_consts (heap w') = mem_consts (heap w) /\
  mem_locvars (heap w') = mem_locvars (heap w).

(** What luaF_freeproto, resp. luaF_freeclosure, may do to the world. *)
Definition proto_teardown (w w' : World) : Prop :=
  released w w' /\ same_closures w w'.

Definition closure_teardown (w w' : World) : Prop :=
  released w w' /\ same_protos w w'.

(** The world with other registry roots. *)
Definition with_roots (rp rc : GCnode) (w : World) : World :=
  set_L {| rootproto := rp; rootcl := rc; nblocks := nblocks (L w) |} w.

Definition outcome_map {A} (g : World -> World) (o : outcome A) : outcome A :=
  match o with
  | Ok a w => Ok a (g w)
  | Fatal => Fatal
  | Undefined => Undefined
  | OutOfFuel => OutOfFuel
  end.

(** [m] never looks at the roots: run from other roots it does the same
    and hands those roots through. *)
Definition root_blind {A} (m : M A) : Prop :=
  forall rp rc w,
    m (with_roots rp rc w) = outcome_map (with_roots rp rc) (m w).

(** [m] changes the world only along [R]. *)
Definition preserves {A} (R : World -> World -> Prop) (m : M A) : Prop :=
  forall w a w', m w = Ok a w' -> R w w'.

(** ** Vocabulary of the further statements *)

(** [k] prototypes, resp. one closure per element count, created in a
    row; the handles come back in creation order. *)
Fixpoint luaF_newprotos (k : nat) : M (list addr) :=
  match k with
  | O => mret []
  | S k' => f ← luaF_newproto; fs ← luaF_newprotos k'; mret (f :: fs)
  end.

Fixpoint luaF_newclosures (ns : list Z) : M (list addr) :=
  match ns with
  | [] => mret []
  | n :: ns' => c ← luaF_newclosure n; cs ← luaF_newclosures ns'; mret (c :: cs)
  end.

(** The blocks of [m] at the addresses [l] (addresses without a block are
    skipped). *)
Definition blocks_at {T} (m : gmap addr T) (l : list addr) : list T :=
  omap (fun a => m !! a) l.

(** The buffers [bufs] are allocated in [m] and no two of them coincide. *)
Definition owned {T} (m : gmap addr T) (bufs : list addr) : Prop :=
  NoDup bufs /\ Forall (fun a => is_Some (m !! a)) bufs.

(** [m] with the blocks at [gone] released, first to last. *)
Definition without {T} (m : gmap addr T) (gone : list addr) : gmap addr T :=
  foldl (fun m a => delete a m) m gone.

(** The world once the prototypes [ps] and the buffers they point to are
    released and the counter has lost 5 for each of them. *)
Definition without_protos (w : World) (ps : list addr) : World :=
  let xs := blocks_at (mem_proto (heap w)) ps in
  {| L := set_nblocks
            (wrap nblocks_ty (nblocks (L w) - 5 * Z.of_nat (length ps))) (L w);
     heap := {| mem_proto := without (mem_proto (heap w)) ps;
                mem_closure := mem_closure (heap w);
                mem_code := without (mem_code (heap w)) (omap code xs);
                mem_consts := without (mem_consts (heap w)) (omap consts xs);
                mem_locvars := without (mem_locvars (heap w)) (omap locvars xs) |} |}.

(** The world once the closures [cs] are released and the counter has lost
    1 for each of them. *)
Definition without_closures (w : World) (cs : list addr) : World :=
  {| L := set_nblocks
            (wrap nblocks_ty (nblocks (L w) - Z.of_nat (length cs))) (L w);
     heap := rset R_closure (without (mem_closure (heap w)) cs) (heap w) |}.

(** The locals alive after the scope events [lv], innermost first; [None]
    when an unregister record finds no local alive. *)
Fixpoint live_after (lv : list LocVar) (st : list string) : option (list string) :=
  match lv with
  | [] => Some st
  | r :: lv' =>
      match varname r with
      | Some ts => live_after lv' (str ts :: st)
      | None =>
          match st with
          | [] => None
          | _ :: st' => live_after lv' st'
          end
      end
  end.

(** The n-th local, counted from the outermost (n = 1), of the alive
    locals [st]. *)
Definition nth_local (st : list string) (n : Z) : option string :=
  if (1 <=? n) && (n <=? Z.of_nat (length st))
  then st !! (length st - Z.to_nat n)%nat
  else None.

(** ** Concrete worlds *)

Definition empty_heap : Memory :=
  {| mem_proto := ∅; mem_closure := ∅; mem_code := ∅; mem_consts := ∅;
     mem_locvars := ∅ |}.

(** An interpreter with nothing registered and a counter of 7. *)
Definition demo_start : World :=
  {| L := {| rootproto := {| next := None |}; rootcl := {| next := None |};
             nblocks := 7 |};
     heap := empty_heap |}.

(** An allocator that always proposes address 1 and never fails, and
    blocks that come back dirty. *)
Definition demo_oracle (size : Z) (h : Memory) : option addr := Some 1%positive.

Definition demo_junk_proto (a : addr) : TProtoFunc :=
  {| pf_head := {| next := Some a |}; consts := Some 3%positive; nconsts := 4;
     code := Some 9%positive; lineDefined := 8;
     fileName := Some {| str := "junk" |}; locvars := Some 1%positive |}.

Definition demo_junk_closure (a : addr) : Closure :=
  {| cl_head := {| next := Some a |}; nelems := 77 |}.

Definition demo_creations : list creation :=
  [NewProto; NewClosure 2; NewProto; NewClosure 0].

Definition demo_simple : list LocVar :=
  [ {| varname := Some {| str := "x" |}; line := 1 |};
    {| varname := Some {| str := "y" |}; line := 5 |};
    {| varname := None; line := -1 |} ].

Definition demo_reuse : list LocVar :=
  [ {| varname := Some {| str := "a" |}; line := 1 |};
    {| varname := None; line := 2 |};
    {| varname := Some {| str := "b" |}; line := 3 |};
    {| varname := None; line := -1 |} ].

(** More unregister than register records, lines out of order, a named
    terminator and records behind it. *)
Definition demo_malformed : list LocVar :=
  [ {| varname := None; line := 4 |};
    {| varname := None; line := 2 |};
    {| varname := Some {| str := "a" |}; line := 3 |};
    {| varname := Some {| str := "end" |}; line := -1 |};
    {| varname := Some {| str := "late" |}; line := 0 |} ].

Definition demo_proto (lv : ptr) : TProtoFunc :=
  {| pf_head := {| next := None |}; consts := None; nconsts := 0; code := None;
     lineDefined := 0; fileName := None; locvars := lv |}.

(** Four prototypes: 1 to 3 carry the arrays above, 4 has no debug
    records. *)
Definition demo_debug : World :=
  {| L := L demo_start;
     heap := {| mem_proto :=
                  list_to_map [ (1%positive, demo_proto (Some 1%positive));
                                (2%positive, demo_proto (Some 2%positive));
                                (3%positive, demo_proto (Some 3%positive));
                                (4%positive, demo_proto None) ];
                mem_closure := ∅; mem_code := ∅; mem_consts := ∅;
                mem_locvars :=
                  list_to_map [ (1%positive, demo_simple);
                                (2%positive, demo_reuse);
                                (3%positive, demo_malformed) ] |} |}.

(** Prototypes 1 and 2 are linked from the root and point to buffers of
    their own, prototype 3 and code buffer 7 stand apart; closures 1 and 2
    are linked from the closure root. *)
Definition demo_owned_proto1 : TProtoFunc :=
  {| pf_head := {| next := Some 2%positive |}; consts := Some 5%positive;
     nconsts := 0; code := Some 1%positive; lineDefined := 1;
     fileName := None; locvars := Some 1%positive |}.

Definition demo_owned_proto2 : TProtoFunc :=
  {| pf_head := {| next := None |}; consts := None; nconsts := 0;
     code := Some 2%positive; lineDefined := 9; fileName := None;
     locvars := None |}.

Definition demo_owned_proto3 : TProtoFunc :=
  {| pf_head := {| next := None |}; consts := None; nconsts := 0;
     code := Some 7%positive; lineDefined := 20; fileName := None;
     locvars := None |}.

Definition demo_owned : World :=
  {| L := {| rootproto := {| next := Some 1%positive |};
             rootcl := {| next := Some 1%positive |}; nblocks := 20 |};
     heap := {| mem_proto :=
                  list_to_map [ (1%positive, demo_owned_proto1);
                                (2%positive, demo_owned_proto2);
                                (3%positive, demo_owned_proto3) ];
                mem_closure :=
                  list_to_map
                    [ (1%positive, {| cl_head := {| next := Some 2%positive |};
                                      nelems := 3 |});
                      (2%positive, {| cl_head := {| next := None |};
                                      nelems := 0 |}) ];
                mem_code :=
                  list_to_map [ (1%positive, [1; 2]); (2%positive, [3]);
                                (7%positive, [9]) ];
                mem_consts := list_to_map [ (5%positive, []) ];
                mem_locvars := list_to_map [ (1%positive, demo_simple) ] |} |}.

(** * Properties *)

(** ** Machine integers *)

Lemma modulus_pos t : 0 < modulus t.
Proof. unfold modulus. apply Z.pow_pos_nonneg; lia. Qed.

Lemma modulus_half t : modulus t = 2 * (modulus t / 2) /\ 0 < modulus t / 2.
Proof.
  unfold modulus.
  replace (Z.pos (ity_bits t)) with (Z.succ (Z.pos (ity_bits t) - 1)) by lia.
  rewrite Z.pow_succ_r by lia.
  set (h := 2 ^ (Z.pos (ity_bits t) - 1)).
  assert (0 < h) as Hh by (apply Z.pow_pos_nonneg; lia).
  assert (2 * h / 2 = h) as -> by (rewrite Z.mul_comm; apply Z.div_mul; lia).
  done.
Qed.

Lemma wrap_in_range t z : in_range t z -> wrap t z = z.
Proof.
  unfold in_range, wrap. pose proof (modulus_half t) as [He Hh].
  destruct (ity_signed t); intros Hz.
  - rewrite Z.mod_small by lia. lia.
  - apply Z.mod_small. lia.
Qed.

Lemma wrap_range t z : in_range t (wrap t z).
Proof.
  unfold in_range, wrap. pose proof (modulus_half t) as [He Hh].
  pose proof (modulus_pos t) as Hm.
  destruct (ity_signed t).
  - pose proof (Z.mod_pos_bound (z + modulus t / 2) (modulus t) Hm). lia.
  - apply Z.mod_pos_bound. lia.
Qed.

Lemma wrap_add_l t a b : wrap t (wrap t a + b) = wrap t (a + b).
Proof.
  unfold wrap. pose proof (modulus_pos t) as Hm.
  destruct (ity_signed t).
  - f_equal.
    replace ((a + modulus t / 2) mod modulus t - modulus t / 2 + b + modulus t / 2)
      with ((a + modulus t / 2) mod modulus t + b) by lia.
    rewrite Zplus_mod_idemp_l. f_equal. lia.
  - apply Zplus_mod_idemp_l.
Qed.

Lemma wrap_sub_l t a b : wrap t (wrap t a - b) = wrap t (a - b).
Proof.
  replace (wrap t a - b) with (wrap t a + - b) by lia.
  by rewrite wrap_add_l.
Qed.

(** ** Local-variable lookup *)

Lemma scan_test_false at_line r :
  negb (line r =? -1) && (line r <? at_line) = false <-> stops at_line r.
Proof.
  unfold stops. rewrite andb_false_iff, negb_false_iff, Z.eqb_eq, Z.ltb_ge.
  reflexivity.
Qed.

Lemma scan_test_true at_line r :
  negb (line r =? -1) && (line r <? at_line) = true <->
  line r <> -1 /\ line r < at_line.
Proof.
  rewrite andb_true_iff, negb_true_iff, Z.eqb_neq, Z.ltb_lt. reflexivity.
Qed.

Lemma getlocalname_loop_scanned lv local_number at_line :
  Exists (stops at_line) lv ->
  forall st,
    getlocalname_loop lv local_number at_line st =
    Some (snd (foldl (fun st r => getlocalname_body local_number r st) st
                 (scanned at_line lv))).
Proof.
  induction lv as [|r lv IH]; intros Hex st.
  - by apply Exists_nil in Hex.
  - simpl. destruct (negb (line r =? -1) && (line r <? at_line)) eqn:Htest.
    + simpl. apply IH. apply Exists_cons in Hex as [Hr|Hlv]; [|done].
      apply scan_test_false in Hr. congruence.
    + reflexivity.
Qed.

Lemma scanned_Forall at_line lv :
  Forall (fun r => line r <> -1 /\ line r < at_line) (scanned at_line lv).
Proof.
  induction lv as [|r lv IH]; simpl; [constructor|].
  destruct (negb (line r =? -1) && (line r <? at_line)) eqn:Htest.
  - constructor; [by apply scan_test_true | done].
  - constructor.
Qed.

Lemma scanned_split at_line lv :
  Exists (stops at_line) lv ->
  exists r post, lv = scanned at_line lv ++ r :: post /\ stops at_line r.
Proof.
  induction lv as [|r lv IH]; intros Hex.
  - by apply Exists_nil in Hex.
  - simpl. destruct (negb (line r =? -1) && (line r <? at_line)) eqn:Htest.
    + apply Exists_cons in Hex as [Hr|Hlv].
      { apply scan_test_false in Hr. congruence. }
      destruct (IH Hlv) as (r' & post & Heq & Hr').
      exists r', post. split; [|done]. simpl. by rewrite <- Heq.
    + exists r, lv. split; [done|]. by apply scan_test_false.
Qed.

Lemma scanned_app_stop at_line pre r post :
  stops at_line r ->
  scanned at_line (pre ++ r :: post) = scanned at_line pre.
Proof.
  intros Hr. induction pre as [|x pre IH]; simpl.
  - apply scan_test_false in Hr. by rewrite Hr.
  - destruct (negb (line x =? -1) && (line x <? at_line)); [by rewrite IH | done].
Qed.

(** Nothing guards the live-count: two unregister records in front of any
    register record leave it at -2. *)
Example scan_state_negative :
  scan_state 1 [ {| varname := None; line := 1 |};
                 {| varname := None; line := 2 |} ] = (-2, None).
Proof. reflexivity. Qed.

Lemma luaF_getlocalname_unfold w func lv local_number at_line :
  has_locvars w func lv ->
  luaF_getlocalname (Some func) local_number at_line w =
  match getlocalname_loop lv local_number at_line (0, None) with
  | Some name => Ok name w
  | None => Undefined
  end.
Proof.
  intros (f & a & Hf & Ha & Hlv).
  unfold luaF_getlocalname, mbind, M_bind, load. simpl.
  rewrite Hf, Ha. simpl. rewrite Hlv.
  by destruct (getlocalname_loop lv local_number at_line (0, None)).
Qed.

(** C2: on an array holding a record that stops the scan, the resolver
    runs the loop body over the records in front of the first such record,
    in order, and returns the candidate held at that point; every record
    it ran on has a line strictly below the queried line (and is not the
    terminator), and the array continues with a record whose line is the
    terminator or is not below the queried line. *)
Theorem luaF_getlocalname_scan w func lv local_number at_line :
  has_locvars w func lv ->
  Exists (stops at_line) lv ->
  luaF_getlocalname (Some func) local_number at_line w =
    Ok (snd (scan_state local_number (scanned at_line lv))) w /\
  Forall (fun r => line r <> -1 /\ line r < at_line) (scanned at_line lv) /\
  exists r post, lv = scanned at_line lv ++ r :: post /\
                 (line r = -1 \/ at_line <= line r).
Proof.
  intros Hlv Hex. split; [|split].
  - rewrite (luaF_getlocalname_unfold _ _ _ _ _ Hlv).
    by rewrite getlocalname_loop_scanned.
  - apply scanned_Forall.
  - by apply scanned_split.
Qed.

(** C3: with records (1,a), (2,unregister), (3,b), terminator, ordinal 1
    resolves to a at line 2, to NULL at line 3 (the unregister record at
    line 2 has dropped the live-count to 0, below the ordinal, and cleared
    a) and to b at line 4 (the register record at line 3 brings the
    live-count back to the ordinal). In general an unregister record
    clears the candidate exactly when it leaves the live-count below the
    ordinal, and a register record that brings the live-count to the
    ordinal sets the candidate to its name. *)
Theorem luaF_getlocalname_reuse w func :
  has_locvars w func
    [ {| varname := Some {| str := "a" |}; line := 1 |};
      {| varname := None; line := 2 |};
      {| varname := Some {| str := "b" |}; line := 3 |};
      {| varname := None; line := -1 |} ] ->
  luaF_getlocalname (Some func) 1 2 w = Ok (Some "a"%string) w /\
  luaF_getlocalname (Some func) 1 3 w = Ok None w /\
  luaF_getlocalname (Some func) 1 4 w = Ok (Some "b"%string) w /\
  (forall local_number count name ln,
     getlocalname_body local_number {| varname := None; line := ln |} (count, name) =
     (wrap int32 (count - 1),
      if wrap int32 (count - 1) <? local_number then None else name)) /\
  (forall local_number count name ln,
     wrap int32 (count - 1) < local_number ->
     snd (getlocalname_body local_number {| varname := None; line := ln |}
            (count, name)) = None) /\
  (forall local_number count name ln ts,
     wrap int32 (count + 1) = local_number ->
     snd (getlocalname_body local_number {| varname := Some ts; line := ln |}
            (count, name)) = Some (str ts)).
Proof.
  intros Hlv. rewrite !(luaF_getlocalname_unfold _ _ _ _ _ Hlv).
  split; [done|]. split; [done|]. split; [done|]. split; [done|]. split.
  - intros n count name ln Hlt. unfold getlocalname_body. simpl.
    apply Z.ltb_lt in Hlt. by rewrite Hlt.
  - intros n count name ln ts Heq. unfold getlocalname_body. simpl.
    apply Z.eqb_eq in Heq. by rewrite Heq.
Qed.

(** C4: with records (1,x), (5,y), terminator, ordinal 1 at line 3 is x,
    ordinal 2 at line 3 is not found, ordinal 2 at line 10 is y. *)
Theorem luaF_getlocalname_simple w func :
  has_locvars w func
    [ {| varname := Some {| str := "x" |}; line := 1 |};
      {| varname := Some {| str := "y" |}; line := 5 |};
      {| varname := None; line := -1 |} ] ->
  luaF_getlocalname (Some func) 1 3 w = Ok (Some "x"%string) w /\
  luaF_getlocalname (Some func) 2 3 w = Ok None w /\
  luaF_getlocalname (Some func) 2 10 w = Ok (Some "y"%string) w.
Proof.
  intros Hlv. by rewrite !(luaF_getlocalname_unfold _ _ _ _ _ Hlv).
Qed.

(** C5: on a prototype whose locvars pointer is NULL the resolver returns
    NULL for every ordinal and line, and the world it returns in is the
    world it was called in. *)
Theorem luaF_getlocalname_no_locvars w func f local_number at_line :
  mem_proto (heap w) !! func = Some f ->
  locvars f = None ->
  luaF_getlocalname (Some func) local_number at_line w = Ok None w.
Proof.
  intros Hf Hnull.
  unfold luaF_getlocalname, mbind, M_bind, load. simpl.
  by rewrite Hf, Hnull.
Qed.

(** C10: on any array that holds a terminator, whatever the records in
    front of it (unregister records may outnumber register records, lines
    may come in any order), the resolver returns a result and leaves the
    world alone; the result is that of the array cut after the terminator,
    so it depends neither on the terminator's name field nor on anything
    behind it. *)
Theorem luaF_getlocalname_total w func pre s post local_number at_line :
  has_locvars w func (pre ++ s :: post) ->
  line s = -1 ->
  exists name,
    luaF_getlocalname (Some func) local_number at_line w = Ok name w /\
    getlocalname_loop (pre ++ [ {| varname := None; line := -1 |} ])
      local_number at_line (0, None) = Some name.
Proof.
  intros Hlv Hs.
  exists (snd (scan_state local_number (scanned at_line pre))). split.
  - rewrite (luaF_getlocalname_unfold _ _ _ _ _ Hlv).
    rewrite getlocalname_loop_scanned.
    + by rewrite scanned_app_stop by by left.
    + apply Exists_app. right. apply Exists_cons. left. by left.
  - rewrite getlocalname_loop_scanned.
    + by rewrite scanned_app_stop by by left.
    + apply Exists_app. right. apply Exists_cons. left. by left.
Qed.

(** ** Creation *)

Lemma pick_free {T} (m : gmap addr T) hint : m !! pick m hint = None.
Proof.
  unfold pick. apply not_elem_of_dom. case_decide as Hin; [|done].
  apply is_fresh.
Qed.

Lemma luaF_newproto_eq w :
  luaF_newproto w =
  match luaM_oracle sizeof_TProtoFunc (heap w) with
  | None => Fatal
  | Some hint =>
      let f := pick (mem_proto (heap w)) hint in
      Ok f
        {| L := {| rootproto := {| next := Some f |};
                   rootcl := rootcl (L w);
                   nblocks := wrap nblocks_ty (nblocks (L w) + 5) |};
           heap := rset R_proto
                     (<[f := {| pf_head := {| next := next (rootproto (L w)) |};
                                consts := None; nconsts := 0; code := None;
                                lineDefined := 0; fileName := None;
                                locvars := None |}]> (mem_proto (heap w)))
                     (heap w) |}
  end.
Proof.
  unfold luaF_newproto, luaM_malloc, mbind, M_bind.
  destruct (luaM_oracle sizeof_TProtoFunc (heap w)) as [hint|]; [|done].
  simpl. set (f := pick (mem_proto (heap w)) hint).
  unfold assign, luaO_insertlist, node_assign, assign, mbind, M_bind, load, store.
  simpl.
  repeat (rewrite lookup_insert_eq; simpl; rewrite ?insert_insert_eq).
  reflexivity.
Qed.

Lemma luaF_newclosure_eq n w :
  luaF_newclosure n w =
  match luaM_oracle (sizeof_Closure + n * sizeof_TObject) (heap w) with
  | None => Fatal
  | Some hint =>
      let c := pick (mem_closure (heap w)) hint in
      Ok c
        {| L := {| rootproto := rootproto (L w);
                   rootcl := {| next := Some c |};
                   nblocks := wrap nblocks_ty (nblocks (L w) + 1) |};
           heap := rset R_closure
                     (<[c := {| cl_head := {| next := next (rootcl (L w)) |};
                                nelems := n |}]> (mem_closure (heap w)))
                     (heap w) |}
  end.
Proof.
  unfold luaF_newclosure, luaM_malloc, mbind, M_bind.
  destruct (luaM_oracle (sizeof_Closure + n * sizeof_TObject) (heap w))
    as [hint|]; [|done].
  simpl. set (c := pick (mem_closure (heap w)) hint).
  unfold luaO_insertlist, node_assign, assign, mbind, M_bind, load, store.
  simpl.
  repeat (rewrite lookup_insert_eq; simpl; rewrite ?insert_insert_eq).
  reflexivity.
Qed.

(** C7: the prototype luaF_newproto returns has code, fileName, consts
    and locvars NULL and lineDefined and nconsts zero, whatever the
    allocator left in the block. *)
Theorem luaF_newproto_zeroed w f w' :
  luaF_newproto w = Ok f w' ->
  exists x, mem_proto (heap w') !! f = Some x /\
            code x = None /\ fileName x = None /\ consts x = None /\
            locvars x = None /\ lineDefined x = 0 /\ nconsts x = 0.
Proof.
  rewrite luaF_newproto_eq.
  destruct (luaM_oracle sizeof_TProtoFunc (heap w)) as [hint|]; [|done].
  simpl. intros [= <- <-]. simpl. rewrite lookup_insert_eq. eauto 10.
Qed.

(** C8: two calls of luaF_newclosure, with any element counts and from any
    worlds, each move the counter by the same constant gcsizeclosure = 1,
    and each returned closure holds the requested count in nelems. *)
Theorem luaF_newclosure_weight m n w1 w2 c1 c2 w1' w2' :
  luaF_newclosure m w1 = Ok c1 w1' ->
  luaF_newclosure n w2 = Ok c2 w2' ->
  nblocks (L w1') = wrap nblocks_ty (nblocks (L w1) + 1) /\
  nblocks (L w2') = wrap nblocks_ty (nblocks (L w2) + 1) /\
  gcsizeclosure c1 = gcsizeclosure c2 /\
  nelems <$> mem_closure (heap w1') !! c1 = Some m /\
  nelems <$> mem_closure (heap w2') !! c2 = Some n.
Proof.
  rewrite !luaF_newclosure_eq.
  destruct (luaM_oracle _ (heap w1)) as [h1|]; [|done].
  destruct (luaM_oracle _ (heap w2)) as [h2|]; [|done].
  simpl. intros [= <- <-] [= <- <-]. simpl.
  by rewrite !lookup_insert_eq.
Qed.

(** ** Sequencing *)

Lemma bind_Ok {A B} (m : M A) (k : A -> M B) w b w' :
  (m ≫= k) w = Ok b w' -> exists a w1, m w = Ok a w1 /\ k a w1 = Ok b w'.
Proof. unfold mbind, M_bind. destruct (m w); [eauto | done..]. Qed.

Lemma preserves_bind {A B} R `{!Transitive R} (m : M A) (k : A -> M B) :
  preserves R m -> (forall a, preserves R (k a)) -> preserves R (m ≫= k).
Proof.
  intros Hm Hk w b w' (a & w1 & H1 & H2)%bind_Ok.
  etrans; [by eapply Hm | by eapply Hk].
Qed.

Lemma preserves_ret {A} R `{!Reflexive R} (a : A) : preserves R (mret a).
Proof. by intros w b w' [= _ <-]. Qed.

Lemma preserves_load {T} R `{!Reflexive R} (r : region T) p :
  preserves R (load r p).
Proof.
  intros w x w'. unfold load. repeat case_match; try done. by intros [= _ <-].
Qed.

(** ** Teardown: what is left alone *)

#[local] Instance released_preorder : PreOrder released.
Proof.
  split.
  - by repeat split.
  - intros w1 w2 w3 (?&?&?&?&?&?&?) (?&?&?&?&?&?&?).
    repeat split; (congruence || (etrans; eassumption)).
Qed.

#[local] Instance proto_teardown_preorder : PreOrder proto_teardown.
Proof.
  split.
  - by split.
  - intros w1 w2 w3 [H1 E1] [H2 E2]. split; [by etrans|].
    unfold same_closures in *. congruence.
Qed.

#[local] Instance closure_teardown_preorder : PreOrder closure_teardown.
Proof.
  split.
  - by repeat split.
  - intros w1 w2 w3 [Ha (?&?&?&?)] [Hb (?&?&?&?)]. split; [by etrans|].
    repeat split; congruence.
Qed.

Ltac teardown_step :=
  let H := fresh in
  intros ? ? ? H; cbv beta delta [luaM_free nblocks_add] in H;
  repeat case_match; simplify_eq/=;
  repeat split; simpl; try done; apply delete_subseteq.

Lemma nblocks_add_proto_teardown k : preserves proto_teardown (nblocks_add k).
Proof. teardown_step. Qed.

Lemma nblocks_add_closure_teardown k : preserves closure_teardown (nblocks_add k).
Proof. teardown_step. Qed.

Lemma luaM_free_code_teardown p : preserves proto_teardown (luaM_free R_code p).
Proof. teardown_step. Qed.

Lemma luaM_free_locvars_teardown p : preserves proto_teardown (luaM_free R_locvars p).
Proof. teardown_step. Qed.

Lemma luaM_free_consts_teardown p : preserves proto_teardown (luaM_free R_consts p).
Proof. teardown_step. Qed.

Lemma luaM_free_proto_teardown p : preserves proto_teardown (luaM_free R_proto p).
Proof. teardown_step. Qed.

Lemma luaM_free_closure_teardown p : preserves closure_teardown (luaM_free R_closure p).
Proof. teardown_step. Qed.

Lemma freefunc_teardown f : preserves proto_teardown (freefunc f).
Proof.
  unfold freefunc.
  repeat (apply preserves_bind; [apply _ | | intros ?]);
    auto using preserves_load, luaM_free_code_teardown,
      luaM_free_locvars_teardown, luaM_free_consts_teardown,
      luaM_free_proto_teardown.
  all: apply preserves_load; apply _.
Qed.

Lemma freeproto_loop_teardown fuel l :
  preserves proto_teardown (freeproto_loop fuel l).
Proof.
  revert l. induction fuel as [|fuel IH]; intros [f|]; simpl;
    try (apply preserves_ret; apply _); [done|].
  apply preserves_bind; [apply _ | apply preserves_load; apply _ | intros x].
  apply preserves_bind; [apply _ | apply nblocks_add_proto_teardown | intros _].
  apply preserves_bind; [apply _ | apply freefunc_teardown | intros _].
  apply IH.
Qed.

Lemma freeclosure_loop_teardown fuel l :
  preserves closure_teardown (freeclosure_loop fuel l).
Proof.
  revert l. induction fuel as [|fuel IH]; intros [c|]; simpl;
    try (apply preserves_ret; apply _); [done|].
  apply preserves_bind; [apply _ | apply preserves_load; apply _ | intros x].
  apply preserves_bind; [apply _ | apply nblocks_add_closure_teardown | intros _].
  apply preserves_bind; [apply _ | apply luaM_free_closure_teardown | intros _].
  apply IH.
Qed.

(** ** Teardown: what is released, and termination *)

Lemma freefunc_Ok f w u w' :
  freefunc f w = Ok u w' ->
  is_Some (mem_proto (heap w) !! f) /\
  mem_proto (heap w') = delete f (mem_proto (heap w)).
Proof.
  unfold freefunc, mbind, M_bind, load, luaM_free. simpl.
  repeat case_match; simplify_eq/=; try done; intros; simplify_eq/=; eauto.
Qed.

Lemma freefunc_fuel f w : freefunc f w <> OutOfFuel.
Proof.
  unfold freefunc, mbind, M_bind, load, luaM_free. simpl.
  repeat case_match; simplify_eq/=; done.
Qed.

Lemma luaM_free_closure_Ok c w u w' :
  luaM_free R_closure (Some c) w = Ok u w' ->
  is_Some (mem_closure (heap w) !! c) /\
  mem_closure (heap w') = delete c (mem_closure (heap w)).
Proof.
  unfold luaM_free. simpl. case_match; [|done]. intros [= _ <-]. eauto.
Qed.

Lemma freeproto_loop_fuel fuel l w :
  (size (mem_proto (heap w)) < fuel)%nat ->
  freeproto_loop fuel l w <> OutOfFuel.
Proof.
  revert l w. induction fuel as [|fuel IH]; intros [f|] w Hsz; simpl;
    try done; [lia|].
  unfold mbind, M_bind, load, nblocks_add. simpl.
  destruct (mem_proto (heap w) !! f) as [x|] eqn:Hf; [|done].
  destruct (freefunc f _) as [u w1| | |] eqn:Hfree; try done.
  - apply IH. apply freefunc_Ok in Hfree as [_ ->]. simpl.
    rewrite map_size_delete_Some by done.
    assert (size (mem_proto (heap w)) <> 0)%nat; [|lia].
    intros Hz%map_size_empty_inv. by rewrite Hz, lookup_empty in Hf.
  - by apply freefunc_fuel in Hfree.
Qed.

Lemma freeclosure_loop_fuel fuel l w :
  (size (mem_closure (heap w)) < fuel)%nat ->
  freeclosure_loop fuel l w <> OutOfFuel.
Proof.
  revert l w. induction fuel as [|fuel IH]; intros [c|] w Hsz; simpl;
    try done; [lia|].
  unfold mbind, M_bind, load, nblocks_add, luaM_free. simpl.
  destruct (mem_closure (heap w) !! c) as [x|] eqn:Hc; [|done].
  simpl. rewrite Hc.
  apply IH. simpl. rewrite map_size_delete_Some by done.
  assert (size (mem_closure (heap w)) <> 0)%nat; [|lia].
  intros Hz%map_size_empty_inv. by rewrite Hz, lookup_empty in Hc.
Qed.

(** The fuel handed to the two loops always suffices: a teardown returns
    or goes through an invalid pointer, the model never cuts it short. *)
Lemma luaF_freeproto_fuel l w : luaF_freeproto l w <> OutOfFuel.
Proof. apply freeproto_loop_fuel. lia. Qed.

Lemma luaF_freeclosure_fuel l w : luaF_freeclosure l w <> OutOfFuel.
Proof. apply freeclosure_loop_fuel. lia. Qed.

Lemma freeproto_loop_first fuel f w u w' :
  freeproto_loop fuel (Some f) w = Ok u w' ->
  mem_proto (heap w') !! f = None.
Proof.
  destruct fuel as [|fuel]; simpl; [done|].
  intros (x & w1 & _ & H1)%bind_Ok.
  apply bind_Ok in H1 as (? & w2 & H2 & H3).
  apply bind_Ok in H3 as (? & w3 & H3 & H4).
  apply freefunc_Ok in H3 as [_ Hdel].
  apply freeproto_loop_teardown in H4 as [(_&_&Hsub&_) _].
  eapply lookup_weaken_None; [|exact Hsub]. rewrite Hdel.
  apply lookup_delete_eq.
Qed.

Lemma freeclosure_loop_first fuel c w u w' :
  freeclosure_loop fuel (Some c) w = Ok u w' ->
  mem_closure (heap w') !! c = None.
Proof.
  destruct fuel as [|fuel]; simpl; [done|].
  intros (x & w1 & _ & H1)%bind_Ok.
  apply bind_Ok in H1 as (? & w2 & H2 & H3).
  apply bind_Ok in H3 as (? & w3 & H3 & H4).
  apply luaM_free_closure_Ok in H3 as [_ Hdel].
  apply freeclosure_loop_teardown in H4 as [(_&_&_&Hsub&_) _].
  eapply lookup_weaken_None; [|exact Hsub]. rewrite Hdel.
  apply lookup_delete_eq.
Qed.

(** ** Teardown: the roots are not consulted *)

Lemma root_blind_bind {A B} (m : M A) (k : A -> M B) :
  root_blind m -> (forall a, root_blind (k a)) -> root_blind (m ≫= k).
Proof.
  intros Hm Hk rp rc w. unfold mbind, M_bind. rewrite Hm.
  destruct (m w); simpl; [apply Hk | done..].
Qed.

Lemma root_blind_ret {A} (a : A) : root_blind (mret a).
Proof. done. Qed.

Lemma root_blind_load {T} (r : region T) p : root_blind (load r p).
Proof. intros rp rc w. unfold load. simpl. by repeat case_match. Qed.

Lemma root_blind_free {T} (r : region T) p : root_blind (luaM_free r p).
Proof. intros rp rc w. unfold luaM_free. simpl. by repeat case_match. Qed.

Lemma root_blind_nblocks_add k : root_blind (nblocks_add k).
Proof. done. Qed.

Lemma root_blind_freefunc f : root_blind (freefunc f).
Proof.
  unfold freefunc.
  repeat (apply root_blind_bind; [|intros ?]);
    auto using root_blind_load, root_blind_free.
Qed.

Lemma root_blind_freeproto_loop fuel l : root_blind (freeproto_loop fuel l).
Proof.
  revert l. induction fuel as [|fuel IH]; intros [f|]; simpl; try done.
  repeat (apply root_blind_bind; [|intros ?]); try apply IH;
    auto using root_blind_load, root_blind_nblocks_add, root_blind_free.
Qed.

Lemma root_blind_freeclosure_loop fuel l : root_blind (freeclosure_loop fuel l).
Proof.
  revert l. induction fuel as [|fuel IH]; intros [c|]; simpl; try done.
  repeat (apply root_blind_bind; [|intros ?]); try apply IH;
    auto using root_blind_load, root_blind_nblocks_add, root_blind_free.
Qed.

(** C6: luaF_freeproto and luaF_freeclosure on a NULL handle return at
    once; counter, roots and heap are those of the call. *)
Theorem luaF_free_null w :
  luaF_freeproto None w = Ok tt w /\ luaF_freeclosure None w = Ok tt w.
Proof. done. Qed.

(** C9: a teardown that returns has left both roots as they were, has
    changed no block of the other kind, has only released blocks of its
    own kind (survivors keep their contents, nothing new appears), and has
    released the block its handle pointed to, so a root that still points
    there dangles; and it behaves the same whatever the two roots hold. *)
Theorem luaF_free_frame l w :
  (forall w', luaF_freeproto l w = Ok tt w' ->
     rootproto (L w') = rootproto (L w) /\ rootcl (L w') = rootcl (L w) /\
     released w w' /\ same_closures w w' /\
     forall f, l = Some f -> mem_proto (heap w') !! f = None) /\
  (forall w', luaF_freeclosure l w = Ok tt w' ->
     rootproto (L w') = rootproto (L w) /\ rootcl (L w') = rootcl (L w) /\
     released w w' /\ same_protos w w' /\
     forall c, l = Some c -> mem_closure (heap w') !! c = None) /\
  (forall rp rc,
     luaF_freeproto l (with_roots rp rc w) =
       outcome_map (with_roots rp rc) (luaF_freeproto l w) /\
     luaF_freeclosure l (with_roots rp rc w) =
       outcome_map (with_roots rp rc) (luaF_freeclosure l w)).
Proof.
  split; [|split].
  - intros w' Hfree.
    pose proof (freeproto_loop_teardown _ _ _ _ _ Hfree) as [Hrel Hcl].
    pose proof Hrel as (Hrp & Hrc & _).
    do 4 (split; [done|]).
    intros f ->. by eapply freeproto_loop_first.
  - intros w' Hfree.
    pose proof (freeclosure_loop_teardown _ _ _ _ _ Hfree) as [Hrel Hpr].
    pose proof Hrel as (Hrp & Hrc & _).
    do 4 (split; [done|]).
    intros c ->. by eapply freeclosure_loop_first.
  - intros rp rc. split.
    + apply root_blind_freeproto_loop.
    + apply root_blind_freeclosure_loop.
Qed.

(** ** Chains *)

Section Chain.
Context {T : Type} (hd : T -> GCnode) (P : T -> Prop).

Lemma chain_in_dom m p l a : chain hd P m p l -> a ∈ l -> is_Some (m !! a).
Proof.
  induction 1 as [|b x l Hb HP Hnin Hch IH]; intros Hin.
  - by apply not_elem_of_nil in Hin.
  - apply elem_of_cons in Hin as [->|Hin]; eauto.
Qed.

Lemma chain_NoDup m p l : chain hd P m p l -> NoDup l.
Proof. induction 1; constructor; done. Qed.

Lemma chain_length m p l : chain hd P m p l -> (length l <= size m)%nat.
Proof.
  intros Hch. rewrite <- size_dom. unfold size, set_size. simpl.
  apply submseteq_length, NoDup_submseteq; [by eapply chain_NoDup|].
  intros a Hin. apply elem_of_elements, elem_of_dom. by eapply chain_in_dom.
Qed.

Lemma chain_insert m p l a y :
  chain hd P m p l -> m !! a = None -> chain hd P (<[a:=y]> m) p l.
Proof.
  intros Hch Ha. induction Hch as [|b x l Hb HP Hnin Hch IH]; [constructor|].
  econstructor; eauto. rewrite lookup_insert_ne; [done|]. congruence.
Qed.

Lemma chain_delete m p l a :
  chain hd P m p l -> a ∉ l -> chain hd P (delete a m) p l.
Proof.
  intros Hch Ha. induction Hch as [|b x l Hb HP Hnin Hch IH]; [constructor|].
  apply not_elem_of_cons in Ha as [Hne Ha].
  econstructor; eauto. by rewrite lookup_delete_ne.
Qed.

Lemma chain_push m p l a y :
  chain hd P m p l -> m !! a = None -> P y -> next (hd y) = p ->
  chain hd P (<[a:=y]> m) (Some a) (a :: l).
Proof.
  intros Hch Ha Hy Hnext. econstructor.
  - apply lookup_insert_eq.
  - done.
  - intros Hin. eapply chain_in_dom in Hin as [? Hin]; [|done]. congruence.
  - rewrite Hnext. by apply chain_insert.
Qed.

End Chain.

(** ** The weight counter over creations and teardown *)

Lemma freefunc_bare f x w :
  mem_proto (heap w) !! f = Some x -> bare x ->
  freefunc f w =
  Ok tt (set_heap (rset R_proto (delete f (mem_proto (heap w))) (heap w)) w).
Proof.
  intros Hf (Hcode & Hlv & Hconsts).
  unfold freefunc, mbind, M_bind, load, luaM_free. simpl.
  rewrite Hf. simpl. rewrite Hcode. simpl. rewrite Hf. simpl.
  rewrite Hlv. simpl. rewrite Hf. simpl. rewrite Hconsts. simpl.
  by rewrite Hf.
Qed.

Lemma freeproto_loop_chain ps :
  forall fuel l w,
    chain pf_head bare (mem_proto (heap w)) l ps ->
    (length ps < fuel)%nat ->
    in_range nblocks_ty (nblocks (L w)) ->
    exists w',
      freeproto_loop fuel l w = Ok tt w' /\
      nblocks (L w') =
        wrap nblocks_ty (nblocks (L w) - 5 * Z.of_nat (length ps)).
Proof.
  induction ps as [|a ps IH]; intros fuel l w Hch Hfuel Hrange;
    inversion Hch as [|a' x l' Ha Hbare Hnin Hrest]; subst.
  - exists w. split; [by destruct fuel|]. simpl.
    rewrite Z.sub_0_r. symmetry. by apply wrap_in_range.
  - destruct fuel as [|fuel]; [simpl in Hfuel; lia|].
    simpl. unfold mbind, M_bind, load, nblocks_add. simpl. rewrite Ha.
    erewrite freefunc_bare by (simpl; eauto).
    edestruct (IH fuel (next (pf_head x))) as (w' & Hrun & Hn);
      [ | | | exists w'; split; [exact Hrun|] ].
    + simpl. by apply chain_delete.
    + simpl in Hfuel. lia.
    + simpl. apply wrap_range.
    + rewrite Hn. simpl. rewrite wrap_sub_l. f_equal. unfold gcsizeproto. lia.
Qed.

Lemma freeclosure_loop_chain cl :
  forall fuel l w,
    chain cl_head (fun _ => True) (mem_closure (heap w)) l cl ->
    (length cl < fuel)%nat ->
    in_range nblocks_ty (nblocks (L w)) ->
    exists w',
      freeclosure_loop fuel l w = Ok tt w' /\
      nblocks (L w') = wrap nblocks_ty (nblocks (L w) - Z.of_nat (length cl)).
Proof.
  induction cl as [|a cl IH]; intros fuel l w Hch Hfuel Hrange;
    inversion Hch as [|a' x l' Ha _ Hnin Hrest]; subst.
  - exists w. split; [by destruct fuel|]. simpl.
    rewrite Z.sub_0_r. symmetry. by apply wrap_in_range.
  - destruct fuel as [|fuel]; [simpl in Hfuel; lia|].
    simpl. unfold mbind, M_bind, load, nblocks_add, luaM_free. simpl.
    rewrite Ha. simpl. rewrite Ha.
    edestruct (IH fuel (next (cl_head x))) as (w' & Hrun & Hn);
      [ | | | exists w'; split; [exact Hrun|] ].
    + simpl. by apply chain_delete.
    + simpl in Hfuel. lia.
    + simpl. apply wrap_range.
    + rewrite Hn. simpl. rewrite wrap_sub_l. f_equal. unfold gcsizeclosure. lia.
Qed.

Lemma luaF_freeproto_chain ps w :
  chain pf_head bare (mem_proto (heap w)) (next (rootproto (L w))) ps ->
  in_range nblocks_ty (nblocks (L w)) ->
  exists w',
    luaF_freeproto (next (rootproto (L w))) w = Ok tt w' /\
    nblocks (L w') = wrap nblocks_ty (nblocks (L w) - 5 * Z.of_nat (length ps)) /\
    proto_teardown w w'.
Proof.
  intros Hch Hrange.
  destruct (freeproto_loop_chain ps (S (size (mem_proto (heap w)))) _ w Hch)
    as (w' & Hrun & Hn); [|done|].
  { apply chain_length in Hch. lia. }
  exists w'. repeat split; try done; by eapply freeproto_loop_teardown.
Qed.

Lemma luaF_freeclosure_chain cl w :
  chain cl_head (fun _ => True) (mem_closure (heap w)) (next (rootcl (L w))) cl ->
  in_range nblocks_ty (nblocks (L w)) ->
  exists w',
    luaF_freeclosure (next (rootcl (L w))) w = Ok tt w' /\
    nblocks (L w') = wrap nblocks_ty (nblocks (L w) - Z.of_nat (length cl)) /\
    closure_teardown w w'.
Proof.
  intros Hch Hrange.
  destruct (freeclosure_loop_chain cl (S (size (mem_closure (heap w)))) _ w Hch)
    as (w' & Hrun & Hn); [|done|].
  { apply chain_length in Hch. lia. }
  exists w'. repeat split; try done; by eapply freeclosure_loop_teardown.
Qed.

Lemma create_chains c w w1 ps cl :
  chain pf_head bare (mem_proto (heap w)) (next (rootproto (L w))) ps ->
  chain cl_head (fun _ => True) (mem_closure (heap w)) (next (rootcl (L w))) cl ->
  create c w = Ok tt w1 ->
  exists ps' cl',
    chain pf_head bare (mem_proto (heap w1)) (next (rootproto (L w1))) ps' /\
    chain cl_head (fun _ => True) (mem_closure (heap w1)) (next (rootcl (L w1))) cl' /\
    5 * Z.of_nat (length ps') + Z.of_nat (length cl') =
      5 * Z.of_nat (length ps) + Z.of_nat (length cl) + total_weight [c] /\
    nblocks (L w1) = wrap nblocks_ty (nblocks (L w) + total_weight [c]).
Proof.
  intros Hps Hcl. destruct c as [|n]; simpl.
  - intros (f & w' & Hnew & [= <-])%bind_Ok. rewrite luaF_newproto_eq in Hnew.
    destruct (luaM_oracle sizeof_TProtoFunc (heap w)) as [hint|]; [|done].
    simpl in Hnew. injection Hnew as <- <-. simpl.
    eexists (_ :: ps), cl. split; [|split; [done|]].
    + eapply chain_push; [exact Hps | apply pick_free | by repeat split | done].
    + split; [simpl length; lia | by rewrite Z.add_0_r].
  - intros (c & w' & Hnew & [= <-])%bind_Ok. rewrite luaF_newclosure_eq in Hnew.
    destruct (luaM_oracle _ (heap w)) as [hint|]; [|done].
    simpl in Hnew. injection Hnew as <- <-. simpl.
    eexists ps, (_ :: cl). split; [done|split].
    + eapply chain_push; [exact Hcl | apply pick_free | done | done].
    + split; [simpl length; lia | by rewrite Z.add_0_r].
Qed.

Lemma create_all_chains cs :
  forall w w1 ps cl,
    chain pf_head bare (mem_proto (heap w)) (next (rootproto (L w))) ps ->
    chain cl_head (fun _ => True) (mem_closure (heap w)) (next (rootcl (L w))) cl ->
    in_range nblocks_ty (nblocks (L w)) ->
    create_all cs w = Ok tt w1 ->
    exists ps' cl',
      chain pf_head bare (mem_proto (heap w1)) (next (rootproto (L w1))) ps' /\
      chain cl_head (fun _ => True) (mem_closure (heap w1)) (next (rootcl (L w1))) cl' /\
      5 * Z.of_nat (length ps') + Z.of_nat (length cl') =
        5 * Z.of_nat (length ps) + Z.of_nat (length cl) + total_weight cs /\
      nblocks (L w1) = wrap nblocks_ty (nblocks (L w) + total_weight cs).
Proof.
  induction cs as [|c cs IH]; intros w w1 ps cl Hps Hcl Hrange; simpl.
  - intros [= <-]. exists ps, cl. repeat split; try done; [lia|].
    rewrite Z.add_0_r. symmetry. by apply wrap_in_range.
  - intros ([] & w' & Hc & Hrest)%bind_Ok.
    destruct (create_chains _ _ _ _ _ Hps Hcl Hc) as (ps1 & cl1 & H1 & H2 & Hlen1 & Hn1).
    destruct (IH w' w1 ps1 cl1 H1 H2) as (ps2 & cl2 & H3 & H4 & Hlen2 & Hn2);
      [rewrite Hn1; apply wrap_range | done |].
    exists ps2, cl2. repeat split; try done.
    + rewrite Hlen2, Hlen1. simpl. destruct c; lia.
    + rewrite Hn2, Hn1, wrap_add_l. f_equal. simpl. destruct c; lia.
Qed.

(** C1: from a world with both registries empty, after any sequence of
    luaF_newproto and luaF_newclosure calls that the allocator serves, the
    counter has gained 5 per prototype and 1 per closure, and freeing the
    two chains from their roots (in either order) returns and brings the
    counter back to the value it had before the sequence. *)
Theorem weight_round_trip cs w0 w1 :
  next (rootproto (L w0)) = None ->
  next (rootcl (L w0)) = None ->
  in_range nblocks_ty (nblocks (L w0)) ->
  create_all cs w0 = Ok tt w1 ->
  nblocks (L w1) = wrap nblocks_ty (nblocks (L w0) + total_weight cs) /\
  (exists w2,
     (luaF_freeproto (next (rootproto (L w1)));;
      luaF_freeclosure (next (rootcl (L w1)))) w1 = Ok tt w2 /\
     nblocks (L w2) = nblocks (L w0)) /\
  (exists w2,
     (luaF_freeclosure (next (rootcl (L w1)));;
      luaF_freeproto (next (rootproto (L w1)))) w1 = Ok tt w2 /\
     nblocks (L w2) = nblocks (L w0)).
Proof.
  intros Hrp Hrc Hrange Hrun.
  destruct (create_all_chains cs w0 w1 [] []) as (ps & cl & Hps & Hcl & Hlen & Hn);
    [rewrite Hrp; constructor | rewrite Hrc; constructor | done | done |].
  assert (in_range nblocks_ty (nblocks (L w1))) as Hrange1.
  { rewrite Hn. apply wrap_range. }
  simpl in Hlen.
  split; [done|split].
  - destruct (luaF_freeproto_chain ps w1 Hps Hrange1)
      as (w2 & Hfp & Hn2 & (Hrp2 & Hrc2 & _) & Hsame).
    destruct (luaF_freeclosure_chain cl w2) as (w3 & Hfc & Hn3 & _).
    { rewrite Hrc2, Hsame. done. }
    { rewrite Hn2. apply wrap_range. }
    exists w3. split.
    + unfold mbind, M_bind. rewrite Hfp. by rewrite <- Hrc2.
    + rewrite Hn3, Hn2, Hn, wrap_sub_l, <- Z.sub_add_distr, wrap_sub_l.
      rewrite <- (wrap_in_range nblocks_ty (nblocks (L w0))) at 2 by done.
      f_equal. lia.
  - destruct (luaF_freeclosure_chain cl w1 Hcl Hrange1)
      as (w2 & Hfc & Hn2 & (Hrp2 & Hrc2 & _) & (Hsame & _)).
    destruct (luaF_freeproto_chain ps w2) as (w3 & Hfp & Hn3 & _).
    { rewrite Hrp2, Hsame. done. }
    { rewrite Hn2. apply wrap_range. }
    exists w3. split.
    + unfold mbind, M_bind. rewrite Hfc. by rewrite <- Hrp2.
    + rewrite Hn3, Hn2, Hn, wrap_sub_l, <- Z.sub_add_distr, wrap_sub_l.
      rewrite <- (wrap_in_range nblocks_ty (nblocks (L w0))) at 2 by done.
      f_equal. lia.
Qed.

(** * Further properties *)

(** ** The scan against the scope stack *)

Lemma nth_local_nil n : nth_local [] n = None.
Proof. unfold nth_local. by case_match. Qed.

Lemma nth_local_push st s n :
  nth_local (s :: st) n =
  if Z.of_nat (length st) + 1 =? n then Some s else nth_local st n.
Proof.
  unfold nth_local. simpl length.
  destruct (Z.eqb_spec (Z.of_nat (length st) + 1) n) as [<-|Hne].
  - replace ((1 <=? Z.of_nat (length st) + 1) &&
             (Z.of_nat (length st) + 1 <=? Z.of_nat (S (length st)))) with true
      by (symmetry; apply andb_true_iff; split; apply Z.leb_le; lia).
    replace (S (length st) - Z.to_nat (Z.of_nat (length st) + 1))%nat with 0%nat
      by lia.
    reflexivity.
  - destruct (Z.leb_spec 1 n) as [H1|H1]; simpl; [|done].
    destruct (Z.leb_spec n (Z.of_nat (S (length st)))) as [H2|H2];
      destruct (Z.leb_spec n (Z.of_nat (length st))) as [H3|H3]; try lia; try done.
    replace (S (length st) - Z.to_nat n)%nat
      with (S (length st - Z.to_nat n))%nat by lia.
    reflexivity.
Qed.

Lemma nth_local_pop st s n :
  nth_local st n =
  if Z.of_nat (length st) <? n then None else nth_local (s :: st) n.
Proof.
  rewrite nth_local_push. unfold nth_local.
  destruct (Z.ltb_spec (Z.of_nat (length st)) n) as [Hlt|Hge].
  - destruct (Z.leb_spec n (Z.of_nat (length st))); [lia|].
    by rewrite andb_false_r.
  - destruct (Z.eqb_spec (Z.of_nat (length st) + 1) n); [lia | done].
Qed.

Lemma int32_in_range z : - 2 ^ 31 <= z < 2 ^ 31 -> in_range int32 z.
Proof.
  change (2 ^ 31) with 2147483648. intros Hz. unfold in_range. simpl.
  change (modulus int32 / 2) with 2147483648. lia.
Qed.

Lemma scan_state_live local_number :
  forall lv st st',
    live_after lv st = Some st' ->
    Z.of_nat (length st) + Z.of_nat (length lv) < 2 ^ 31 ->
    foldl (fun acc r => getlocalname_body local_number r acc)
      (Z.of_nat (length st), nth_local st local_number) lv =
    (Z.of_nat (length st'), nth_local st' local_number).
Proof.
  induction lv as [|r lv IH]; intros st st' Hlive Hlen; simpl in *.
  - by injection Hlive as <-.
  - unfold getlocalname_body at 2. simpl.
    destruct (varname r) as [ts|].
    + rewrite wrap_in_range by (apply int32_in_range; lia).
      rewrite <- nth_local_push.
      replace (Z.of_nat (length st) + 1) with (Z.of_nat (length (str ts :: st)))
        by (simpl length; lia).
      apply IH; [done | simpl length; lia].
    + destruct st as [|s st]; [done|].
      simpl length in *.
      rewrite wrap_in_range by (apply int32_in_range; lia).
      replace (Z.of_nat (S (length st)) - 1) with (Z.of_nat (length st)) by lia.
      rewrite <- nth_local_pop.
      apply IH; [done | lia].
Qed.

Lemma scanned_length at_line lv : (length (scanned at_line lv) <= length lv)%nat.
Proof.
  induction lv as [|r lv IH]; simpl; [lia|].
  destruct (negb (line r =? -1) && (line r <? at_line)); simpl; lia.
Qed.

(** X1: when the records in front of the queried line nest properly (no
    unregister without a local alive) and the array has fewer than 2^31
    records, the resolver returns the n-th local alive at that point,
    counted from the outermost, and NULL when fewer than n are alive or n
    is below 1. *)
Theorem luaF_getlocalname_nth_local w func lv local_number at_line st :
  has_locvars w func lv ->
  Exists (stops at_line) lv ->
  Z.of_nat (length lv) < 2 ^ 31 ->
  live_after (scanned at_line lv) [] = Some st ->
  luaF_getlocalname (Some func) local_number at_line w =
    Ok (nth_local st local_number) w.
Proof.
  intros Hlv Hex Hlen Hlive.
  rewrite (luaF_getlocalname_unfold _ _ _ _ _ Hlv).
  rewrite getlocalname_loop_scanned by done.
  pose proof (scanned_length at_line lv) as Hsl.
  replace (0, @None string)
    with (Z.of_nat (length (@nil string)), nth_local [] local_number)
    by (by rewrite nth_local_nil).
  rewrite (scan_state_live local_number _ _ _ Hlive) by (simpl length; lia).
  reflexivity.
Qed.

Lemma scan_state_sound local_number lv :
  forall acc s,
    snd (foldl (fun acc r => getlocalname_body local_number r acc) acc lv) = Some s ->
    snd acc = Some s \/
    exists r ts, r ∈ lv /\ varname r = Some ts /\ str ts = s.
Proof.
  induction lv as [|r lv IH]; intros acc s Hres; simpl in *; [by left|].
  apply IH in Hres as [Hacc|(r' & ts & Hin & Hname & Hstr)].
  - unfold getlocalname_body in Hacc. destruct (varname r) as [ts|] eqn:Hr.
    + simpl in Hacc. case_match; [|by left].
      right. exists r, ts. split; [left|]. split; [done | congruence].
    + simpl in Hacc. case_match; [done | by left].
  - right. exists r', ts. split; [by right | done].
Qed.

(** X2: on any array, well nested or not, a name the resolver returns is
    the name of a register record of that array whose line is strictly
    below the queried line and is not the terminator. *)
Theorem luaF_getlocalname_sound w w' func lv local_number at_line s :
  has_locvars w func lv ->
  luaF_getlocalname (Some func) local_number at_line w = Ok (Some s) w' ->
  exists r ts,
    r ∈ lv /\ varname r = Some ts /\ str ts = s /\
    line r < at_line /\ line r <> -1.
Proof.
  intros Hlv. rewrite (luaF_getlocalname_unfold _ _ _ _ _ Hlv).
  destruct (getlocalname_loop lv local_number at_line (0, None)) as [res|] eqn:Hloop;
    [|done].
  intros [= -> _].
  assert (Exists (stops at_line) lv) as Hex.
  { clear Hlv. revert Hloop. generalize (0, @None string).
    induction lv as [|r lv IH]; intros acc; simpl; [done|].
    destruct (negb (line r =? -1) && (line r <? at_line)) eqn:Htest.
    - intros H%IH. by apply Exists_cons_tl.
    - intros _. apply Exists_cons_hd. by apply scan_test_false. }
  rewrite getlocalname_loop_scanned in Hloop by done.
  injection Hloop as Hres.
  apply scan_state_sound in Hres as [Hinit|(r & ts & Hin & Hname & Hstr)];
    [done|].
  pose proof (scanned_Forall at_line lv) as Hall.
  rewrite Forall_forall in Hall. destruct (Hall r Hin) as [Hne Hlt].
  exists r, ts. repeat split; try done.
  destruct (scanned_split at_line lv Hex) as (r0 & post & Heq & _).
  rewrite Heq. apply elem_of_app. by left.
Qed.

(** ** The order of the lists *)

Lemma luaF_newproto_chain w f w' ps :
  chain pf_head (fun _ => True) (mem_proto (heap w)) (next (rootproto (L w))) ps ->
  luaF_newproto w = Ok f w' ->
  chain pf_head (fun _ => True) (mem_proto (heap w')) (next (rootproto (L w')))
    (f :: ps).
Proof.
  intros Hps. rewrite luaF_newproto_eq.
  destruct (luaM_oracle sizeof_TProtoFunc (heap w)) as [hint|]; [|done].
  simpl. intros [= <- <-]. simpl.
  eapply chain_push; [exact Hps | apply pick_free | done | done].
Qed.

Lemma luaF_newclosure_chain n w c w' cl :
  chain cl_head (fun _ => True) (mem_closure (heap w)) (next (rootcl (L w))) cl ->
  luaF_newclosure n w = Ok c w' ->
  chain cl_head (fun _ => True) (mem_closure (heap w')) (next (rootcl (L w')))
    (c :: cl) /\
  mem_closure (heap w) ⊆ mem_closure (heap w') /\
  nelems <$> mem_closure (heap w') !! c = Some n.
Proof.
  intros Hcl. rewrite luaF_newclosure_eq.
  destruct (luaM_oracle _ (heap w)) as [hint|]; [|done].
  simpl. intros [= <- <-]. simpl. split; [|split].
  - eapply chain_push; [exact Hcl | apply pick_free | done | done].
  - apply insert_subseteq, pick_free.
  - by rewrite lookup_insert_eq.
Qed.

(** X3: after k calls of luaF_newproto, walking the prototype list from
    its root meets exactly the k new prototypes, latest first, and then
    the prototypes that were on the list before. *)
Theorem luaF_newprotos_order k :
  forall w fs w' ps,
    chain pf_head (fun _ => True) (mem_proto (heap w)) (next (rootproto (L w))) ps ->
    luaF_newprotos k w = Ok fs w' ->
    length fs = k /\
    chain pf_head (fun _ => True) (mem_proto (heap w')) (next (rootproto (L w')))
      (reverse fs ++ ps).
Proof.
  induction k as [|k IH]; intros w fs w' ps Hps; simpl.
  - by intros [= <- <-].
  - intros (f & w1 & Hnew & Hrest)%bind_Ok.
    apply bind_Ok in Hrest as (fs' & w2 & Hrest & [= <- <-]).
    pose proof (luaF_newproto_chain _ _ _ _ Hps Hnew) as Hch.
    destruct (IH _ _ _ _ Hch Hrest) as [Hlen Hch'].
    split; [simpl; lia|].
    by rewrite reverse_cons, <- app_assoc.
Qed.

(** X4: after one luaF_newclosure call per element count of a list,
    walking the closure list from its root meets exactly the new closures,
    latest first, and then the earlier ones; every new closure still holds
    the element count it was created with. *)
Theorem luaF_newclosures_order ns :
  forall w cs w' cl,
    chain cl_head (fun _ => True) (mem_closure (heap w)) (next (rootcl (L w))) cl ->
    luaF_newclosures ns w = Ok cs w' ->
    chain cl_head (fun _ => True) (mem_closure (heap w')) (next (rootcl (L w')))
      (reverse cs ++ cl) /\
    mem_closure (heap w) ⊆ mem_closure (heap w') /\
    Forall2 (fun c n => nelems <$> mem_closure (heap w') !! c = Some n) cs ns.
Proof.
  induction ns as [|n ns IH]; intros w cs w' cl Hcl; simpl.
  - intros [= <- <-]. split; [done|]. split; [done | constructor].
  - intros (c & w1 & Hnew & Hrest)%bind_Ok.
    apply bind_Ok in Hrest as (cs' & w2 & Hrest & [= <- <-]).
    destruct (luaF_newclosure_chain _ _ _ _ _ Hcl Hnew) as (Hch & Hsub & Hn).
    destruct (IH _ _ _ _ Hch Hrest) as (Hch' & Hsub' & Hall).
    split; [by rewrite reverse_cons, <- app_assoc|].
    split; [by etrans|].
    constructor; [|done].
    destruct (mem_closure (heap w1) !! c) as [x|] eqn:Hc; [|done].
    by rewrite (lookup_weaken _ _ _ _ Hc Hsub').
Qed.

(** ** Teardown of prototypes that own buffers *)

Lemma lookup_without {T} (m : gmap addr T) gone a :
  without m gone !! a = if decide (a ∈ gone) then None else m !! a.
Proof.
  unfold without. revert m. induction gone as [|b gone IH]; intros m; cbn [foldl].
  - destruct (decide (a ∈ [])) as [Hin|]; [by apply not_elem_of_nil in Hin | done].
  - rewrite IH. destruct (decide (a = b)) as [->|Hne].
    + rewrite lookup_delete_eq. rewrite (decide_True (P := b ∈ b :: gone)) by left.
      by case_decide.
    + rewrite lookup_delete_ne by done.
      destruct (decide (a ∈ gone)) as [Hin|Hnin].
      * by rewrite decide_True by by right.
      * rewrite decide_False; [done|]. by intros [?|?]%elem_of_cons.
Qed.

Lemma omap_cons_option_list {A B} (f : A -> option B) x l :
  omap f (x :: l) = option_list (f x) ++ omap f l.
Proof. simpl. by destruct (f x). Qed.

Lemma blocks_at_delete {T} (m : gmap addr T) a l :
  a ∉ l -> blocks_at (delete a m) l = blocks_at m l.
Proof.
  induction l as [|b l IH]; intros Hnin; [done|].
  apply not_elem_of_cons in Hnin as [Hne Hnin]. specialize (IH Hnin).
  unfold blocks_at in *. rewrite !omap_cons_option_list.
  rewrite lookup_delete_ne by done. by rewrite IH.
Qed.

Lemma owned_here {T} (m : gmap addr T) p l c :
  owned m (option_list p ++ l) -> p = Some c -> is_Some (m !! c).
Proof.
  intros [_ Hall] ->. simpl in Hall. by apply Forall_cons in Hall as [? _].
Qed.

Lemma owned_rest {T} (m : gmap addr T) p l :
  owned m (option_list p ++ l) -> owned (without m (option_list p)) l.
Proof.
  destruct p as [c|]; simpl; [|done].
  intros [[Hnin Hnd]%NoDup_cons [_ Hall]%Forall_cons]. split; [done|].
  rewrite Forall_forall in *. intros a Hin. unfold without. simpl.
  rewrite lookup_delete_ne; [by apply Hall|]. by intros ->.
Qed.

Lemma freefunc_owned f x w :
  mem_proto (heap w) !! f = Some x ->
  (forall c, code x = Some c -> is_Some (mem_code (heap w) !! c)) ->
  (forall c, locvars x = Some c -> is_Some (mem_locvars (heap w) !! c)) ->
  (forall c, consts x = Some c -> is_Some (mem_consts (heap w) !! c)) ->
  freefunc f w =
  Ok tt (set_heap
           {| mem_proto := delete f (mem_proto (heap w));
              mem_closure := mem_closure (heap w);
              mem_code := without (mem_code (heap w)) (option_list (code x));
              mem_consts := without (mem_consts (heap w)) (option_list (consts x));
              mem_locvars := without (mem_locvars (heap w)) (option_list (locvars x)) |}
           w).
Proof.
  intros Hf Hcode Hlv Hconsts.
  unfold freefunc, mbind, M_bind, load, luaM_free. simpl. rewrite Hf. simpl.
  destruct (code x) as [c|]; simpl.
  - destruct (Hcode c eq_refl) as [? ->]. simpl. rewrite Hf. simpl.
    destruct (locvars x) as [c1|]; simpl.
    + destruct (Hlv c1 eq_refl) as [? ->]. simpl. rewrite Hf. simpl.
      destruct (consts x) as [c2|]; simpl.
      * destruct (Hconsts c2 eq_refl) as [? ->]. simpl. by rewrite Hf.
      * by rewrite Hf.
    + rewrite Hf. simpl. destruct (consts x) as [c2|]; simpl.
      * destruct (Hconsts c2 eq_refl) as [? ->]. simpl. by rewrite Hf.
      * by rewrite Hf.
  - rewrite Hf. simpl. destruct (locvars x) as [c1|]; simpl.
    + destruct (Hlv c1 eq_refl) as [? ->]. simpl. rewrite Hf. simpl.
      destruct (consts x) as [c2|]; simpl.
      * destruct (Hconsts c2 eq_refl) as [? ->]. simpl. by rewrite Hf.
      * by rewrite Hf.
    + rewrite Hf. simpl. destruct (consts x) as [c2|]; simpl.
      * destruct (Hconsts c2 eq_refl) as [? ->]. simpl. by rewrite Hf.
      * by rewrite Hf.
Qed.

Lemma without_protos_nil w :
  in_range nblocks_ty (nblocks (L w)) -> without_protos w [] = w.
Proof.
  intros Hr. unfold without_protos, set_nblocks. simpl.
  rewrite Z.sub_0_r, wrap_in_range by done.
  by destruct w as [[] []].
Qed.

Lemma without_protos_cons w a x ps :
  mem_proto (heap w) !! a = Some x -> a ∉ ps ->
  without_protos
    (set_heap
       {| mem_proto := delete a (mem_proto (heap w));
          mem_closure := mem_closure (heap w);
          mem_code := without (mem_code (heap w)) (option_list (code x));
          mem_consts := without (mem_consts (heap w)) (option_list (consts x));
          mem_locvars := without (mem_locvars (heap w)) (option_list (locvars x)) |}
       (set_L (set_nblocks (wrap nblocks_ty (nblocks (L w) + - gcsizeproto a)) (L w)) w))
    ps
  = without_protos w (a :: ps).
Proof.
  intros Ha Hnin.
  assert (blocks_at (mem_proto (heap w)) (a :: ps) =
          x :: blocks_at (mem_proto (heap w)) ps) as Hblocks.
  { unfold blocks_at. by rewrite omap_cons_option_list, Ha. }
  unfold without_protos. rewrite Hblocks.
  unfold set_nblocks, set_heap, set_L.
  cbn [heap L mem_proto mem_closure mem_code mem_consts mem_locvars nblocks
       rootproto rootcl].
  rewrite blocks_at_delete by done.
  rewrite !omap_cons_option_list. unfold without. rewrite !foldl_app.
  cbn [length foldl].
  f_equal. f_equal. rewrite wrap_sub_l. f_equal. unfold gcsizeproto. lia.
Qed.

Lemma freeproto_loop_exact ps :
  forall fuel l w,
    chain pf_head (fun _ => True) (mem_proto (heap w)) l ps ->
    owned (mem_code (heap w)) (omap code (blocks_at (mem_proto (heap w)) ps)) ->
    owned (mem_locvars (heap w)) (omap locvars (blocks_at (mem_proto (heap w)) ps)) ->
    owned (mem_consts (heap w)) (omap consts (blocks_at (mem_proto (heap w)) ps)) ->
    (length ps < fuel)%nat ->
    in_range nblocks_ty (nblocks (L w)) ->
    freeproto_loop fuel l w = Ok tt (without_protos w ps).
Proof.
  induction ps as [|a ps IH]; intros fuel l w Hch Hcode Hlv Hconsts Hfuel Hrange;
    inversion Hch as [|a' x l' Ha _ Hnin Hrest]; subst.
  - rewrite without_protos_nil by done. by destruct fuel.
  - destruct fuel as [|fuel]; [simpl in Hfuel; lia|].
    assert (blocks_at (mem_proto (heap w)) (a :: ps) =
            x :: blocks_at (mem_proto (heap w)) ps) as Hblocks.
    { unfold blocks_at. by rewrite omap_cons_option_list, Ha. }
    rewrite Hblocks, !omap_cons_option_list in *.
    simpl. unfold mbind, M_bind, load, nblocks_add. simpl. rewrite Ha.
    erewrite freefunc_owned; [| simpl; exact Ha | simpl; intros c Hc ..].
    + rewrite <- (without_protos_cons w a x ps Ha Hnin).
      apply IH; simpl.
      * by apply chain_delete.
      * rewrite blocks_at_delete by done. by apply owned_rest.
      * rewrite blocks_at_delete by done. by apply owned_rest.
      * rewrite blocks_at_delete by done. by apply owned_rest.
      * simpl in Hfuel. lia.
      * apply wrap_range.
    + by eapply owned_here.
    + by eapply owned_here.
    + by eapply owned_here.
Qed.

(** X5: on a list of distinct prototypes that ends in NULL, each pointing
    to buffers that are NULL or allocated and shared with no other
    prototype of the list, luaF_freeproto returns; it has released exactly
    those prototypes and those buffers, every other block and both roots
    are as before, and the counter is 5 lower per prototype. *)
Theorem luaF_freeproto_exact l w ps :
  chain pf_head (fun _ => True) (mem_proto (heap w)) l ps ->
  owned (mem_code (heap w)) (omap code (blocks_at (mem_proto (heap w)) ps)) ->
  owned (mem_locvars (heap w)) (omap locvars (blocks_at (mem_proto (heap w)) ps)) ->
  owned (mem_consts (heap w)) (omap consts (blocks_at (mem_proto (heap w)) ps)) ->
  in_range nblocks_ty (nblocks (L w)) ->
  luaF_freeproto l w = Ok tt (without_protos w ps).
Proof.
  intros Hch Hcode Hlv Hconsts Hrange. unfold luaF_freeproto.
  apply freeproto_loop_exact; try done.
  apply chain_length in Hch. lia.
Qed.

Lemma freeclosure_loop_exact cs :
  forall fuel l w,
    chain cl_head (fun _ => True) (mem_closure (heap w)) l cs ->
    (length cs < fuel)%nat ->
    in_range nblocks_ty (nblocks (L w)) ->
    freeclosure_loop fuel l w = Ok tt (without_closures w cs).
Proof.
  induction cs as [|a cs IH]; intros fuel l w Hch Hfuel Hrange;
    inversion Hch as [|a' x l' Ha _ Hnin Hrest]; subst.
  - destruct fuel; simpl; f_equal; unfold without_closures, set_nblocks; simpl;
      rewrite Z.sub_0_r, wrap_in_range by done; by destruct w as [[] []].
  - destruct fuel as [|fuel]; [simpl in Hfuel; lia|].
    simpl. unfold mbind, M_bind, load, nblocks_add, luaM_free. simpl.
    rewrite Ha. simpl. rewrite Ha.
    rewrite IH; simpl.
    + f_equal. unfold without_closures, set_nblocks. simpl.
      f_equal. f_equal. rewrite wrap_sub_l. f_equal. unfold gcsizeclosure. lia.
    + by apply chain_delete.
    + simpl in Hfuel. lia.
    + apply wrap_range.
Qed.

(** X6: on a list of distinct closures that ends in NULL, luaF_freeclosure
    returns; it has released exactly those closures, every other block and
    both roots are as before, and the counter is 1 lower per closure,
    whatever the closures' element counts. *)
Theorem luaF_freeclosure_exact l w cs :
  chain cl_head (fun _ => True) (mem_closure (heap w)) l cs ->
  in_range nblocks_ty (nblocks (L w)) ->
  luaF_freeclosure l w = Ok tt (without_closures w cs).
Proof.
  intros Hch Hrange. unfold luaF_freeclosure.
  apply freeclosure_loop_exact; try done.
  apply chain_length in Hch. lia.
Qed.

(** ** What a returning teardown has walked *)

Lemma chain_undelete {T} (hd : T -> GCnode) P (m : gmap addr T) a p l :
  chain hd P (delete a m) p l -> chain hd P m p l /\ a ∉ l.
Proof.
  induction 1 as [|b x l Hb HP Hnin Hch [IH1 IH2]]; [split; [constructor|]|].
  - apply not_elem_of_nil.
  - apply lookup_delete_Some in Hb as [Hne Hb]. split.
    + by econstructor.
    + apply not_elem_of_cons. done.
Qed.

Lemma load_Ok {T} (r : region T) p x w w' :
  load r p w = Ok x w' ->
  exists a, p = Some a /\ w' = w /\ rget r (heap w) !! a = Some x.
Proof.
  unfold load. destruct p as [a|]; [|done].
  destruct (rget r (heap w) !! a) as [y|] eqn:Hy; [|done].
  intros [= <- <-]. eauto.
Qed.

Lemma freeproto_loop_walked fuel :
  forall l w w',
    freeproto_loop fuel l w = Ok tt w' ->
    exists ps,
      chain pf_head (fun _ => True) (mem_proto (heap w)) l ps /\
      mem_proto (heap w') = without (mem_proto (heap w)) ps.
Proof.
  induction fuel as [|fuel IH]; intros [f|] w w'; simpl;
    try (intros [= <-]; exists []; split; [constructor | done]); [done|].
  intros (x & w1 & (? & [= <-] & -> & Hf)%load_Ok & H1)%bind_Ok.
  apply bind_Ok in H1 as ([] & w2 & [= <-] & H2).
  apply bind_Ok in H2 as ([] & w3 & Hfree & Hloop).
  apply freefunc_Ok in Hfree as [_ Hdel]. simpl in Hdel.
  apply IH in Hloop as (ps & Hch & Hmem). rewrite Hdel in Hch, Hmem.
  apply chain_undelete in Hch as [Hch Hnin].
  exists (f :: ps). split; [by econstructor | done].
Qed.

Lemma freeclosure_loop_walked fuel :
  forall l w w',
    freeclosure_loop fuel l w = Ok tt w' ->
    exists cs,
      chain cl_head (fun _ => True) (mem_closure (heap w)) l cs /\
      mem_closure (heap w') = without (mem_closure (heap w)) cs.
Proof.
  induction fuel as [|fuel IH]; intros [c|] w w'; simpl;
    try (intros [= <-]; exists []; split; [constructor | done]); [done|].
  intros (x & w1 & (? & [= <-] & -> & Hc)%load_Ok & H1)%bind_Ok.
  apply bind_Ok in H1 as ([] & w2 & [= <-] & H2).
  apply bind_Ok in H2 as ([] & w3 & Hfree & Hloop).
  apply luaM_free_closure_Ok in Hfree as [_ Hdel]. simpl in Hdel.
  apply IH in Hloop as (cs & Hch & Hmem). rewrite Hdel in Hch, Hmem.
  apply chain_undelete in Hch as [Hch Hnin].
  exists (c :: cs). split; [by econstructor | done].
Qed.

(** X7: luaF_freeproto returns only when its handle starts a list of
    distinct allocated prototypes that ends in NULL, and then the
    prototypes it has released are exactly those of that list; on a list
    that runs into a released or unallocated block, or back into itself,
    it does not return. *)
Theorem luaF_freeproto_walked l w w' :
  luaF_freeproto l w = Ok tt w' ->
  exists ps,
    chain pf_head (fun _ => True) (mem_proto (heap w)) l ps /\
    mem_proto (heap w') = without (mem_proto (heap w)) ps.
Proof. apply freeproto_loop_walked. Qed.

(** X8: luaF_freeclosure returns only when its handle starts a list of
    distinct allocated closures that ends in NULL, and then the closures
    it has released are exactly those of that list. *)
Theorem luaF_freeclosure_walked l w w' :
  luaF_freeclosure l w = Ok tt w' ->
  exists cs,
    chain cl_head (fun _ => True) (mem_closure (heap w)) l cs /\
    mem_closure (heap w') = without (mem_closure (heap w)) cs.
Proof. apply freeclosure_loop_walked. Qed.

(** ** A root left on a released list *)

(** X9: when the prototype list is freed from the root's first node and
    the root is left as it is, the next luaF_newproto links the new
    prototype in front of the released node, and freeing the list from the
    root then goes through an invalid pointer, wherever the allocator put
    the new prototype. *)
Theorem luaF_freeproto_stale_root w f w1 g w2 :
  next (rootproto (L w)) = Some f ->
  luaF_freeproto (Some f) w = Ok tt w1 ->
  luaF_newproto w1 = Ok g w2 ->
  next (rootproto (L w2)) = Some g /\
  (next ∘ pf_head <$> mem_proto (heap w2) !! g) = Some (Some f) /\
  luaF_freeproto (next (rootproto (L w2))) w2 = Undefined.
Proof.
  intros Hroot Hfree Hnew.
  pose proof (freeproto_loop_first _ _ _ _ _ Hfree) as Hgone.
  apply freeproto_loop_teardown in Hfree as [(Hrp & _) _].
  rewrite luaF_newproto_eq in Hnew.
  destruct (luaM_oracle sizeof_TProtoFunc (heap w1)) as [hint|]; [|done].
  simpl in Hnew. injection Hnew as <- <-.
  set (g := pick (mem_proto (heap w1)) hint).
  assert (mem_proto (heap w1) !! g = None) as Hg by apply pick_free.
  simpl. rewrite lookup_insert_eq, Hrp, Hroot. simpl.
  split; [done|]. split; [done|].
  unfold luaF_freeproto. simpl.
  rewrite map_size_insert_None by done. simpl.
  unfold mbind, M_bind, load, nblocks_add. simpl.
  rewrite lookup_insert_eq.
  erewrite freefunc_bare; [| simpl; apply lookup_insert_eq | by repeat split].
  simpl. rewrite delete_insert_id by done.
  by rewrite Hgone.
Qed.

(** ** Termination of the teardown loops *)

(** X10: both teardown loops terminate on every world, also on a list that
    runs in a circle or into released memory: every turn releases a block,
    so the walk has ended at NULL or gone through an invalid pointer before
    the model's bound on the number of turns is reached. *)
Theorem luaF_free_terminates l w :
  luaF_freeproto l w <> OutOfFuel /\ luaF_freeclosure l w <> OutOfFuel.
Proof. split; [apply luaF_freeproto_fuel | apply luaF_freeclosure_fuel]. Qed.

End Lfunc.

Arguments Ok {TObject A} a w.
Arguments L {TObject} w.
Arguments heap {TObject} w.
Arguments mem_proto {TObject} m.
Arguments mem_closure {TObject} m.
Arguments luaF_getlocalname {TObject} func local_number at_line w.
Arguments luaF_freeproto {TObject} nblocks_ty l w.
Arguments luaF_freeclosure {TObject} nblocks_ty l w.
Arguments has_locvars {TObject} w func lv.
Arguments released {TObject} w w'.
Arguments same_closures {TObject} w w'.
Arguments same_protos {TObject} w w'.

(** * The statements on concrete worlds

    Object type of the runs below: [unit]; counter type: [int32]; sizes:
    24, 16 and 56 bytes. *)

Lemma has_locvars_demo_simple : has_locvars (demo_debug unit) 1%positive demo_simple.
Proof. exists (demo_proto (Some 1%positive)), 1%positive. by vm_compute. Defined.

Lemma has_locvars_demo_reuse : has_locvars (demo_debug unit) 2%positive demo_reuse.
Proof. exists (demo_proto (Some 2%positive)), 2%positive. by vm_compute. Defined.

Lemma has_locvars_demo_malformed : has_locvars (demo_debug unit) 3%positive demo_malformed.
Proof. exists (demo_proto (Some 3%positive)), 3%positive. by vm_compute. Defined.

Lemma demo_created :
  exists w1,
    create_all unit int32 24 16 56 (demo_oracle unit)
      demo_junk_proto demo_junk_closure demo_creations (demo_start unit)
    = Ok tt w1.
Proof. vm_compute. eauto. Defined.

Lemma demo_start_in_range : in_range int32 (nblocks (L (demo_start unit))).
Proof. vm_compute. split; [discriminate | reflexivity]. Defined.

Lemma weight_round_trip_witness :
  exists w1 w2,
    create_all unit int32 24 16 56 (demo_oracle unit)
      demo_junk_proto demo_junk_closure demo_creations (demo_start unit)
    = Ok tt w1 /\
    nblocks (L w1) = 19 /\
    (luaF_freeproto int32 (next (rootproto (L w1)));;
     luaF_freeclosure int32 (next (rootcl (L w1)))) w1 = Ok tt w2 /\
    nblocks (L w2) = 7.
Proof.
  destruct demo_created as [w1 Hrun].
  destruct (weight_round_trip unit int32 24 16 56 (demo_oracle unit)
              demo_junk_proto demo_junk_closure demo_creations
              (demo_start unit) w1 eq_refl eq_refl demo_start_in_range Hrun)
    as (Hn & (w2 & Hfree & Hback) & _).
  exists w1, w2.
  split; [exact Hrun|]. split; [exact Hn|]. split; [exact Hfree | exact Hback].
Defined.

Lemma luaF_getlocalname_scan_witness :
  luaF_getlocalname (Some 1%positive) 2 10 (demo_debug unit)
  = Ok (Some "y"%string) (demo_debug unit).
Proof.
  destruct (luaF_getlocalname_scan unit (demo_debug unit) 1%positive demo_simple 2 10)
    as (Hres & _ & _); [apply has_locvars_demo_simple | | exact Hres].
  apply Exists_exists. exists {| varname := None; line := -1 |}.
  split; [repeat constructor | by left].
Defined.

Lemma luaF_getlocalname_reuse_witness :
  luaF_getlocalname (Some 2%positive) 1 2 (demo_debug unit)
    = Ok (Some "a"%string) (demo_debug unit) /\
  luaF_getlocalname (Some 2%positive) 1 3 (demo_debug unit)
    = Ok None (demo_debug unit) /\
  luaF_getlocalname (Some 2%positive) 1 4 (demo_debug unit)
    = Ok (Some "b"%string) (demo_debug unit).
Proof.
  destruct (luaF_getlocalname_reuse unit (demo_debug unit) 2%positive
              has_locvars_demo_reuse) as (H2 & H3 & H4 & _).
  split; [exact H2|]. split; [exact H3 | exact H4].
Defined.

Lemma luaF_getlocalname_simple_witness :
  luaF_getlocalname (Some 1%positive) 1 3 (demo_debug unit)
    = Ok (Some "x"%string) (demo_debug unit) /\
  luaF_getlocalname (Some 1%positive) 2 3 (demo_debug unit)
    = Ok None (demo_debug unit) /\
  luaF_getlocalname (Some 1%positive) 2 10 (demo_debug unit)
    = Ok (Some "y"%string) (demo_debug unit).
Proof.
  apply (luaF_getlocalname_simple unit (demo_debug unit) 1%positive).
  apply has_locvars_demo_simple.
Defined.

Lemma luaF_getlocalname_no_locvars_witness :
  luaF_getlocalname (Some 4%positive) 1 3 (demo_debug unit)
  = Ok None (demo_debug unit).
Proof.
  apply (luaF_getlocalname_no_locvars unit (demo_debug unit) 4%positive (demo_proto None));
    reflexivity.
Defined.

Lemma luaF_getlocalname_total_witness :
  exists name,
    luaF_getlocalname (Some 3%positive) 1 10 (demo_debug unit)
      = Ok name (demo_debug unit) /\
    getlocalname_loop
      [ {| varname := None; line := 4 |};
        {| varname := None; line := 2 |};
        {| varname := Some {| str := "a" |}; line := 3 |};
        {| varname := None; line := -1 |} ] 1 10 (0, None) = Some name.
Proof.
  apply (luaF_getlocalname_total unit (demo_debug unit) 3%positive
           [ {| varname := None; line := 4 |};
             {| varname := None; line := 2 |};
             {| varname := Some {| str := "a" |}; line := 3 |} ]
           {| varname := Some {| str := "end" |}; line := -1 |}
           [ {| varname := Some {| str := "late" |}; line := 0 |} ]).
  - apply has_locvars_demo_malformed.
  - reflexivity.
Defined.

Lemma demo_newproto :
  exists f w',
    luaF_newproto unit int32 56 (demo_oracle unit) demo_junk_proto (demo_start unit)
    = Ok f w'.
Proof. vm_compute. eauto. Defined.

Lemma luaF_newproto_zeroed_witness :
  exists f w' x,
    luaF_newproto unit int32 56 (demo_oracle unit) demo_junk_proto (demo_start unit)
      = Ok f w' /\
    mem_proto (heap w') !! f = Some x /\
    code x = None /\ fileName x = None /\ consts x = None /\
    locvars x = None /\ lineDefined x = 0 /\ nconsts x = 0.
Proof.
  destruct demo_newproto as (f & w' & Hnew).
  destruct (luaF_newproto_zeroed unit int32 56 (demo_oracle unit) demo_junk_proto
              (demo_start unit) f w' Hnew) as (x & Hx).
  exists f, w', x. split; [exact Hnew | exact Hx].
Defined.

Lemma demo_newclosure :
  exists c1 w1 c2 w2,
    luaF_newclosure unit int32 24 16 (demo_oracle unit) demo_junk_closure 0
      (demo_start unit) = Ok c1 w1 /\
    luaF_newclosure unit int32 24 16 (demo_oracle unit) demo_junk_closure 1000
      (demo_start unit) = Ok c2 w2.
Proof. vm_compute. eauto 10. Defined.

Lemma luaF_newclosure_weight_witness :
  exists c1 w1 c2 w2,
    luaF_newclosure unit int32 24 16 (demo_oracle unit) demo_junk_closure 0
      (demo_start unit) = Ok c1 w1 /\
    luaF_newclosure unit int32 24 16 (demo_oracle unit) demo_junk_closure 1000
      (demo_start unit) = Ok c2 w2 /\
    nblocks (L w1) = 8 /\ nblocks (L w2) = 8 /\
    nelems <$> mem_closure (heap w1) !! c1 = Some 0 /\
    nelems <$> mem_closure (heap w2) !! c2 = Some 1000.
Proof.
  destruct demo_newclosure as (c1 & w1 & c2 & w2 & H1 & H2).
  destruct (luaF_newclosure_weight unit int32 24 16 (demo_oracle unit)
              demo_junk_closure 0 1000 (demo_start unit) (demo_start unit)
              c1 c2 w1 w2 H1 H2) as (Hn1 & Hn2 & _ & He1 & He2).
  exists c1, w1, c2, w2.
  split; [exact H1|]. split; [exact H2|]. split; [exact Hn1|].
  split; [exact Hn2|]. split; [exact He1 | exact He2].
Defined.

Lemma demo_torn_down :
  exists w1 f w2,
    create_all unit int32 24 16 56 (demo_oracle unit)
      demo_junk_proto demo_junk_closure demo_creations (demo_start unit)
      = Ok tt w1 /\
    next (rootproto (L w1)) = Some f /\
    luaF_freeproto int32 (Some f) w1 = Ok tt w2.
Proof.
  eexists _, _, _.
  split; [vm_compute; reflexivity|].
  split; [vm_compute; reflexivity|].
  vm_compute. reflexivity.
Defined.

Lemma luaF_free_frame_witness :
  exists w1 f w2,
    create_all unit int32 24 16 56 (demo_oracle unit)
      demo_junk_proto demo_junk_closure demo_creations (demo_start unit)
      = Ok tt w1 /\
    luaF_freeproto int32 (next (rootproto (L w1))) w1 = Ok tt w2 /\
    next (rootproto (L w2)) = Some f /\
    mem_proto (heap w2) !! f = None /\
    rootcl (L w2) = rootcl (L w1) /\
    mem_closure (heap w2) = mem_closure (heap w1).
Proof.
  destruct demo_torn_down as (w1 & f & w2 & Hrun & Hroot & Hfree).
  destruct (luaF_free_frame unit int32 (Some f) w1) as (Hproto & _ & _).
  destruct (Hproto w2 Hfree) as (Hrp & Hrc & _ & Hcl & Hgone).
  exists w1, f, w2.
  split; [exact Hrun|].
  split; [exact (eq_ind_r (fun p => luaF_freeproto int32 p w1 = Ok tt w2) Hfree Hroot)|].
  split; [exact (eq_trans (f_equal next Hrp) Hroot)|].
  split; [exact (Hgone f eq_refl)|].
  split; [exact Hrc | exact Hcl].
Defined.

(** * The further statements on concrete worlds *)

Arguments mem_code {TObject} m.
Arguments mem_consts {TObject} m.
Arguments mem_locvars {TObject} m.

Lemma luaF_getlocalname_nth_local_witness :
  luaF_getlocalname (Some 2%positive) 1 4 (demo_debug unit)
  = Ok (Some "b"%string) (demo_debug unit).
Proof.
  apply (luaF_getlocalname_nth_local unit (demo_debug unit) 2%positive
           demo_reuse 1 4 ["b"%string]).
  - apply has_locvars_demo_reuse.
  - apply Exists_exists. exists {| varname := None; line := -1 |}.
    split; [repeat constructor | by left].
  - reflexivity.
  - reflexivity.
Defined.

Lemma demo_lookup_y :
  luaF_getlocalname (Some 1%positive) 2 10 (demo_debug unit)
  = Ok (Some "y"%string) (demo_debug unit).
Proof. vm_compute. reflexivity. Defined.

Lemma luaF_getlocalname_sound_witness :
  exists r ts,
    r ∈ demo_simple /\ varname r = Some ts /\ str ts = "y"%string /\
    line r < 10 /\ line r <> -1.
Proof.
  exact (luaF_getlocalname_sound unit (demo_debug unit) (demo_debug unit)
           1%positive demo_simple 2 10 "y"%string
           has_locvars_demo_simple demo_lookup_y).
Defined.

Lemma demo_three_protos :
  exists fs w',
    luaF_newprotos unit int32 56 (demo_oracle unit) demo_junk_proto 3
      (demo_start unit) = Ok fs w'.
Proof. vm_compute. eauto. Defined.

Lemma luaF_newprotos_order_witness :
  exists fs w',
    luaF_newprotos unit int32 56 (demo_oracle unit) demo_junk_proto 3
      (demo_start unit) = Ok fs w' /\
    length fs = 3%nat /\
    chain pf_head (fun _ => True) (mem_proto (heap w'))
      (next (rootproto (L w'))) (reverse fs ++ []).
Proof.
  destruct demo_three_protos as (fs & w' & Hrun).
  exists fs, w'. split; [exact Hrun|].
  exact (luaF_newprotos_order unit int32 56 (demo_oracle unit) demo_junk_proto 3
           (demo_start unit) fs w' [] (chain_nil _ _ _) Hrun).
Defined.

Lemma demo_three_closures :
  exists cs w',
    luaF_newclosures unit int32 24 16 (demo_oracle unit) demo_junk_closure
      [0; 1; 1000] (demo_start unit) = Ok cs w'.
Proof. vm_compute. eauto. Defined.

Lemma luaF_newclosures_order_witness :
  exists cs w',
    luaF_newclosures unit int32 24 16 (demo_oracle unit) demo_junk_closure
      [0; 1; 1000] (demo_start unit) = Ok cs w' /\
    chain cl_head (fun _ => True) (mem_closure (heap w'))
      (next (rootcl (L w'))) (reverse cs ++ []) /\
    Forall2 (fun c n => nelems <$> mem_closure (heap w') !! c = Some n)
      cs [0; 1; 1000].
Proof.
  destruct demo_three_closures as (cs & w' & Hrun).
  destruct (luaF_newclosures_order unit int32 24 16 (demo_oracle unit)
              demo_junk_closure [0; 1; 1000] (demo_start unit) cs w' []
              (chain_nil _ _ _) Hrun) as (Hch & _ & Hall).
  exists cs, w'. split; [exact Hrun|]. split; [exact Hch | exact Hall].
Defined.

Lemma demo_owned_proto_chain :
  chain pf_head (fun _ => True) (mem_proto (heap (demo_owned unit)))
    (Some 1%positive) [1%positive; 2%positive].
Proof.
  apply (chain_cons _ _ _ 1%positive demo_owned_proto1 [2%positive]);
    [reflexivity | exact I | by intros ?%list_elem_of_singleton |].
  apply (chain_cons _ _ _ 2%positive demo_owned_proto2 []);
    [reflexivity | exact I | apply not_elem_of_nil | apply chain_nil].
Defined.

Lemma demo_owned_closure_chain :
  chain cl_head (fun _ => True) (mem_closure (heap (demo_owned unit)))
    (Some 1%positive) [1%positive; 2%positive].
Proof.
  apply (chain_cons _ _ _ 1%positive
           {| cl_head := {| next := Some 2%positive |}; nelems := 3 |} [2%positive]);
    [reflexivity | exact I | by intros ?%list_elem_of_singleton |].
  apply (chain_cons _ _ _ 2%positive
           {| cl_head := {| next := None |}; nelems := 0 |} []);
    [reflexivity | exact I | apply not_elem_of_nil | apply chain_nil].
Defined.

Lemma demo_owned_in_range : in_range int32 (nblocks (L (demo_owned unit))).
Proof. vm_compute. split; [discriminate | reflexivity]. Defined.

Lemma luaF_freeproto_exact_witness :
  luaF_freeproto int32 (Some 1%positive) (demo_owned unit)
    = Ok tt (without_protos unit int32 (demo_owned unit) [1%positive; 2%positive]) /\
  nblocks (L (without_protos unit int32 (demo_owned unit) [1%positive; 2%positive]))
    = 10.
Proof.
  split; [|reflexivity].
  apply (luaF_freeproto_exact unit int32 (Some 1%positive) (demo_owned unit)
           [1%positive; 2%positive] demo_owned_proto_chain).
  - unfold owned. apply (bool_decide_unpack _). vm_compute. exact I.
  - unfold owned. apply (bool_decide_unpack _). vm_compute. exact I.
  - unfold owned. apply (bool_decide_unpack _). vm_compute. exact I.
  - exact demo_owned_in_range.
Defined.

Lemma luaF_freeclosure_exact_witness :
  luaF_freeclosure int32 (Some 1%positive) (demo_owned unit)
    = Ok tt (without_closures unit int32 (demo_owned unit) [1%positive; 2%positive]).
Proof.
  exact (luaF_freeclosure_exact unit int32 (Some 1%positive) (demo_owned unit)
           [1%positive; 2%positive] demo_owned_closure_chain demo_owned_in_range).
Defined.

Lemma demo_owned_freed :
  exists w',
    luaF_freeproto int32 (Some 1%positive) (demo_owned unit) = Ok tt w'.
Proof. vm_compute. eauto. Defined.

Lemma luaF_freeproto_walked_witness :
  exists w' ps,
    luaF_freeproto int32 (Some 1%positive) (demo_owned unit) = Ok tt w' /\
    chain pf_head (fun _ => True) (mem_proto (heap (demo_owned unit)))
      (Some 1%positive) ps /\
    mem_proto (heap w') = without (mem_proto (heap (demo_owned unit))) ps.
Proof.
  destruct demo_owned_freed as (w' & Hfree).
  destruct (luaF_freeproto_walked unit int32 (Some 1%positive) (demo_owned unit)
              w' Hfree) as (ps & Hch & Hmem).
  exists w', ps. split; [exact Hfree|]. split; [exact Hch | exact Hmem].
Defined.

Lemma demo_owned_closures_freed :
  exists w',
    luaF_freeclosure int32 (Some 1%positive) (demo_owned unit) = Ok tt w'.
Proof. vm_compute. eauto. Defined.

Lemma luaF_freeclosure_walked_witness :
  exists w' cs,
    luaF_freeclosure int32 (Some 1%positive) (demo_owned unit) = Ok tt w' /\
    chain cl_head (fun _ => True) (mem_closure (heap (demo_owned unit)))
      (Some 1%positive) cs /\
    mem_closure (heap w') = without (mem_closure (heap (demo_owned unit))) cs.
Proof.
  destruct demo_owned_closures_freed as (w' & Hfree).
  destruct (luaF_freeclosure_walked unit int32 (Some 1%positive)
              (demo_owned unit) w' Hfree) as (cs & Hch & Hmem).
  exists w', cs. split; [exact Hfree|]. split; [exact Hch | exact Hmem].
Defined.

Lemma demo_owned_freed_then_new :
  exists w1 g w2,
    luaF_freeproto int32 (Some 1%positive) (demo_owned unit) = Ok tt w1 /\
    luaF_newproto unit int32 56 (demo_oracle unit) demo_junk_proto w1 = Ok g w2.
Proof.
  eexists _, _, _.
  split; [vm_compute; reflexivity|].
  vm_compute. reflexivity.
Defined.

Lemma luaF_freeproto_stale_root_witness :
  exists w1 g w2,
    luaF_freeproto int32 (Some 1%positive) (demo_owned unit) = Ok tt w1 /\
    luaF_newproto unit int32 56 (demo_oracle unit) demo_junk_proto w1 = Ok g w2 /\
    next (rootproto (L w2)) = Some g /\
    luaF_freeproto int32 (next (rootproto (L w2))) w2 = Undefined _ _.
Proof.
  destruct demo_owned_freed_then_new as (w1 & g & w2 & Hfree & Hnew).
  destruct (luaF_freeproto_stale_root unit int32 56 (demo_oracle unit)
              demo_junk_proto (demo_owned unit) 1%positive w1 g w2
              eq_refl Hfree Hnew) as (Hroot & _ & Hundef).
  exists w1, g, w2.
  split; [exact Hfree|]. split; [exact Hnew|]. split; [exact Hroot | exact Hundef].
Defined.

(** * The set-file reader (tools/emi/setb2set.cpp)

    [Data] walks a byte buffer with a bare pointer; the constructors of
    [Setup], [Light] and [Sector] read their fields through it. Bytes are
    reinterpreted in place as int, float and bool, so the three decoders
    are those of the host and stay abstract, as do float arithmetic and the
    success of the allocations whose size comes from the file.
    Allocations of a fixed size are taken to succeed. A read outside the
    buffer or an array is undefined behaviour. *)

Section Setb2set.

Variable float : Type.
Variable float_of_bytes : list byte -> float.   (* *(float * )buf *)
Variable int_of_bytes : list byte -> Z.         (* *(int * )buf, an int32 *)
Variable bool_of_bytes : list byte -> bool.     (* *(bool * )buf *)
Variable fadd fsub fmul fdiv : float -> float -> float.
Variable fsqrt : float -> float.                (* ::sqrt on a float *)
Variable new_ok : Z -> bool.                    (* does new float[n] succeed *)
Variable junk_float : nat -> float.             (* contents of a fresh array *)
Variable reserve_ok : Z -> bool.                (* does vector::reserve(n) succeed *)

(** class Data: the buffer and the pointer [buf] into it, as an offset. *)
Record Data := { bytes : list byte; buf : Z }.

Inductive presult (A : Type) : Type :=
| POk (a : A) (d : Data)
| PThrow        (* std::bad_alloc or std::bad_array_new_length *)
| PUndefined.
Arguments POk {A}.
Arguments PThrow {A}.
Arguments PUndefined {A}.

Definition P (A : Type) : Type := Data -> presult A.

#[global] Instance P_ret : MRet P := fun A a d => POk a d.

#[global] Instance P_bind : MBind P := fun A B f m d =>
  match m d with
  | POk a d' => f a d'
  | PThrow => PThrow
  | PUndefined => PUndefined
  end.

Definition pundefined {A} : P A := fun _ => PUndefined.
Definition pthrow {A} : P A := fun _ => PThrow.

(** [buf += n] *)
Definition advance (n : Z) : P unit := fun d =>
  POk tt {| bytes := bytes d; buf := buf d + n |}.

(** The [n] bytes at [buf]; all of them must lie in the buffer. *)
Definition peek (n : nat) : P (list byte) := fun d =>
  if (0 <=? buf d) && (buf d + Z.of_nat n <=? Z.of_nat (length (bytes d)))
  then POk (take n (drop (Z.to_nat (buf d)) (bytes d))) d
  else PUndefined.

(** The characters in front of the first NUL. *)
Fixpoint cstring (l : list byte) : option (list byte) :=
  match l with
  | [] => None
  | b :: l' =>
      if Byte.eqb b x00 then Some [] else cons b <$> cstring l'
  end.

(** [string(buf)]: the C string at [buf]; the bytes up to and including
    its NUL must lie in the buffer. *)
Definition string_at_buf : P (list byte) := fun d =>
  if 0 <=? buf d
  then match cstring (drop (Z.to_nat (buf d)) (bytes d)) with
       | Some s => POk s d
       | None => PUndefined
       end
  else PUndefined.

Definition GetFloat : P float :=
  b ← peek 4;
  let retVal := float_of_bytes b in
  advance 4;;
  mret retVal.

Definition GetInt : P Z :=
  b ← peek 4;
  let retVal := int_of_bytes b in
  advance 4;;
  mret retVal.

Definition GetBool : P bool :=
  b ← peek 1;
  let retVal := bool_of_bytes b in
  advance 1;;
  mret retVal.

Definition GetString (length : Z) : P (list byte) :=
  s ← string_at_buf;
  advance length;;
  mret s.

Definition GetNullTerminatedString : P (list byte) :=
  s ← string_at_buf;
  advance (Z.of_nat (length s) + 1);;
  mret s.

Definition Skip (val : Z) : P unit := advance val.

(** ** Arrays of float *)

(** [new float[n]] for a length that comes from the file. *)
Definition new_float_array (n : Z) : P (list float) := fun d =>
  if n <? 0 then PThrow
  else if new_ok n then POk (junk_float <$> seq 0 (Z.to_nat n)) d
  else PThrow.

(** [a[i]] and [a[i] = v] *)
Definition array_get (a : list float) (i : Z) : P float := fun d =>
  if 0 <=? i
  then match a !! Z.to_nat i with
       | Some v => POk v d
       | None => PUndefined
       end
  else PUndefined.

Definition array_set (a : list float) (i : Z) (v : float) : P (list float) :=
  fun d =>
    if (0 <=? i) && (i <? Z.of_nat (length a))
    then POk (<[Z.to_nat i := v]> a) d
    else PUndefined.

(** ** class Setup *)

Record Setup := {
  Setup_name : list byte;
  Setup_tile : list byte;
  Setup_background : list byte;
  Setup_zbuffer : list byte;
  Setup_position : list float;
  Setup_interest : list float;
  Setup_roll : float;
  Setup_fov : float;
  Setup_nclip : float;
  Setup_fclip : float
}.

Definition Setup_ctor : P Setup :=
  name ← GetString 128;
  unknown ← GetInt;
  tile ← GetNullTerminatedString;
  let position := junk_float <$> seq 0 3 in
  v ← GetFloat; position ← array_set position 0 v;
  v ← GetFloat; position ← array_set position 1 v;
  v ← GetFloat; position ← array_set position 2 v;
  let interest := junk_float <$> seq 0 3 in
  v ← GetFloat; interest ← array_set interest 0 v;
  v ← GetFloat; interest ← array_set interest 1 v;
  v ← GetFloat; interest ← array_set interest 2 v;
  roll ← GetFloat;
  fov ← GetFloat;
  nclip ← GetFloat;
  fclip ← GetFloat;
  mret {| Setup_name := name; Setup_tile := tile;
          Setup_background := []; Setup_zbuffer := [];
          Setup_position := position; Setup_interest := interest;
          Setup_roll := roll; Setup_fov := fov;
          Setup_nclip := nclip; Setup_fclip := fclip |}.

(** ** class Light

    The constructor assigns no member; only the string member has a
    determined value. *)

Record Light := { Light_name : list byte }.

Definition Light_ctor : P Light :=
  Skip 100;;
  mret {| Light_name := [] |}.

(** ** class Sector *)

Record Sector := {
  Sector_name : list byte;
  Sector_ID : Z;
  Sector_type : Z;
  Sector_height : float;
  Sector_numVertices : Z;
  Sector_vertices : list float;
  Sector_normal : list float;
  Sector_visible : bool
}.

(** The loop [for (int i = 0; i < numVertices; i++)], [n] turns from [i]. *)
Fixpoint Sector_read_vertices (n : nat) (i : Z) (vertices : list float)
    : P (list float) :=
  match n with
  | O => mret vertices
  | S n' =>
      v ← GetFloat;
      vertices ← array_set vertices (wrap int32 (0 + wrap int32 (3 * i))) v;
      v ← GetFloat;
      vertices ← array_set vertices (wrap int32 (1 + wrap int32 (3 * i))) v;
      v ← GetFloat;
      vertices ← array_set vertices (wrap int32 (2 + wrap int32 (3 * i))) v;
      Sector_read_vertices n' (wrap int32 (i + 1)) vertices
  end.

(** [a[i] - a[j]] *)
Definition sub_at (a : list float) (i j : Z) : P float :=
  u ← array_get a i;
  v ← array_get a j;
  mret (fsub u v).

Definition Sector_ctor : P Sector :=
  numVertices ← GetInt;
  vertices ← new_float_array (wrap int32 (3 * numVertices));
  vertices ← Sector_read_vertices (Z.to_nat numVertices) 0 vertices;
  nameLength ← GetInt;
  name ← GetString nameLength;
  ID ← GetInt;
  visible ← GetBool;
  type ← GetInt;
  skip ← GetInt;
  Skip (wrap int32 (skip * 4));;
  height ← GetFloat;
  c10 ← sub_at vertices 3 0;
  c11 ← sub_at vertices 4 1;
  c12 ← sub_at vertices 5 2;
  let x := wrap int32 (3 * wrap int32 (numVertices - 1)) in
  c20 ← sub_at vertices (wrap int32 (x + 0)) 0;
  c21 ← sub_at vertices (wrap int32 (x + 1)) 1;
  c22 ← sub_at vertices (wrap int32 (x + 2)) 2;
  let nx := fsub (fmul c11 c22) (fmul c21 c12) in
  let ny := fsub (fmul c10 c22) (fmul c20 c12) in
  let nz := fsub (fmul c10 c21) (fmul c20 c11) in
  let norm := fadd (fadd (fmul nx nx) (fmul ny ny)) (fmul nz nz) in
  let norm := fsqrt norm in
  mret {| Sector_name := name; Sector_ID := ID; Sector_type := type;
          Sector_height := height; Sector_numVertices := numVertices;
          Sector_vertices := vertices;
          Sector_normal := [fdiv nx norm; fdiv ny norm; fdiv nz norm];
          Sector_visible := visible |}.

(** ** class Set

    [numColormaps] is never assigned and is left out; [setName] and
    [colormaps] are only default-constructed. *)

Record Set_ := {
  Set_setName : list byte;
  Set_numSetups : Z;
  Set_numLights : Z;
  Set_numSectors : Z;
  Set_setups : list Setup;
  Set_colormaps : list (list byte);
  Set_lights : list Light;
  Set_sectors : list Sector
}.

Definition uint32 : IntTy := {| ity_bits := 32; ity_signed := false |}.

Definition reserve (n : Z) : P unit := fun d =>
  if reserve_ok n then POk tt d else PThrow.

(** The loop [for (uint32 i = 0; i < num; i++) v.push_back(new T(data))],
    [n] turns onto the vector [v]. *)
Fixpoint push_back_new {T} (ctor : P T) (n : nat) (v : list T) : P (list T) :=
  match n with
  | O => mret v
  | S n' => x ← ctor; push_back_new ctor n' (v ++ [x])
  end.

Definition Set_ctor : P Set_ :=
  n ← GetInt;
  let numSetups := wrap uint32 n in
  reserve numSetups;;
  setups ← push_back_new Setup_ctor (Z.to_nat numSetups) [];
  n ← GetInt;
  let numLights := wrap uint32 n in
  reserve numLights;;
  lights ← push_back_new Light_ctor (Z.to_nat numLights) [];
  n ← GetInt;
  let numSectors := wrap uint32 n in
  reserve numSectors;;
  sectors ← push_back_new Sector_ctor (Z.to_nat numSectors) [];
  mret {| Set_setName := []; Set_numSetups := numSetups;
          Set_numLights := numLights; Set_numSectors := numSectors;
          Set_setups := setups; Set_colormaps := [];
          Set_lights := lights; Set_sectors := sectors |}.

(** ** Vocabulary of the statements *)

(** The cursor of [d] stands between [pre] and [rest]. *)
Definition at_cursor (d : Data) (pre rest : list byte) : Prop :=
  bytes d = pre ++ rest /\ buf d = Z.of_nat (length pre).

(** [d] with the cursor moved by [n]. *)
Definition moved (n : Z) (d : Data) : Data :=
  {| bytes := bytes d; buf := buf d + n |}.

(** The k-th vertex held by a coordinate array. *)
Definition vertex (V : list float) (k : nat) : option (float * float * float) :=
  match V !! (3 * k)%nat, V !! (3 * k + 1)%nat, V !! (3 * k + 2)%nat with
  | Some a, Some b, Some c => Some (a, b, c)
  | _, _, _ => None
  end.

(** The normal as the Sector constructor derives it from three vertices:
    [p] is subtracted from [q] and from [r], the two differences are
    combined componentwise as in the source, and the result is divided by
    its length. *)
Definition normal3 (p q r : float * float * float) : list float :=
  let '(p0, p1, p2) := p in
  let '(q0, q1, q2) := q in
  let '(r0, r1, r2) := r in
  let '(c10, c11, c12) := (fsub q0 p0, fsub q1 p1, fsub q2 p2) in
  let '(c20, c21, c22) := (fsub r0 p0, fsub r1 p1, fsub r2 p2) in
  let nx := fsub (fmul c11 c22) (fmul c21 c12) in
  let ny := fsub (fmul c10 c22) (fmul c20 c12) in
  let nz := fsub (fmul c10 c21) (fmul c20 c11) in
  let norm := fsqrt (fadd (fadd (fmul nx nx) (fmul ny ny)) (fmul nz nz)) in
  [fdiv nx norm; fdiv ny norm; fdiv nz norm].

(** ** Reading at the cursor *)

Lemma pbind_POk {A B} (m : P A) (k : A -> P B) d b d' :
  (m ≫= k) d = POk b d' -> exists a d1, m d = POk a d1 /\ k a d1 = POk b d'.
Proof. unfold mbind, P_bind. destruct (m d); [eauto | done..]. Qed.

Lemma at_cursor_moved d pre c rest :
  at_cursor d pre (c ++ rest) ->
  at_cursor (moved (Z.of_nat (length c)) d) (pre ++ c) rest.
Proof.
  intros [Hb Hp]. split; simpl.
  - by rewrite Hb, <- app_assoc.
  - rewrite Hp, length_app. lia.
Qed.

Lemma peek_at d pre c rest :
  at_cursor d pre (c ++ rest) -> peek (length c) d = POk c d.
Proof.
  intros [Hb Hp]. unfold peek. rewrite Hp, Hb, Nat2Z.id.
  rewrite !length_app.
  replace ((0 <=? Z.of_nat (length pre)) &&
           (Z.of_nat (length pre) + Z.of_nat (length c) <=?
            Z.of_nat (length pre + (length c + length rest)))) with true
    by (symmetry; apply andb_true_iff; split; apply Z.leb_le; lia).
  by rewrite drop_app_length, take_app_length.
Qed.

Lemma GetInt_at d pre c rest :
  at_cursor d pre (c ++ rest) -> length c = 4%nat ->
  GetInt d = POk (int_of_bytes c) (moved 4 d).
Proof.
  intros Hat Hlen. unfold GetInt, mbind, P_bind.
  rewrite <- Hlen at 1. by rewrite (peek_at _ _ _ _ Hat).
Qed.

Lemma GetFloat_at d pre c rest :
  at_cursor d pre (c ++ rest) -> length c = 4%nat ->
  GetFloat d = POk (float_of_bytes c) (moved 4 d).
Proof.
  intros Hat Hlen. unfold GetFloat, mbind, P_bind.
  rewrite <- Hlen at 1. by rewrite (peek_at _ _ _ _ Hat).
Qed.

Lemma GetBool_at d pre c rest :
  at_cursor d pre (c ++ rest) -> length c = 1%nat ->
  GetBool d = POk (bool_of_bytes c) (moved 1 d).
Proof.
  intros Hat Hlen. unfold GetBool, mbind, P_bind.
  rewrite <- Hlen at 1. by rewrite (peek_at _ _ _ _ Hat).
Qed.

Lemma at_cursor_moved4 d pre c rest :
  at_cursor d pre (c ++ rest) -> length c = 4%nat ->
  at_cursor (moved 4 d) (pre ++ c) rest.
Proof.
  intros Hat Hlen. apply at_cursor_moved in Hat. by rewrite Hlen in Hat.
Qed.

Lemma cstring_app s rest : x00 ∉ s -> cstring (s ++ x00 :: rest) = Some s.
Proof.
  induction s as [|b s IH]; intros Hnin; simpl; [done|].
  apply not_elem_of_cons in Hnin as [Hne Hnin].
  destruct (Byte.eqb b x00) eqn:Heq.
  - apply Byte.byte_dec_bl in Heq. congruence.
  - by rewrite IH.
Qed.

Lemma string_at d pre s rest :
  at_cursor d pre (s ++ x00 :: rest) -> x00 ∉ s ->
  string_at_buf d = POk s d.
Proof.
  intros [Hb Hp] Hnin. unfold string_at_buf. rewrite Hp, Hb, Nat2Z.id.
  replace (0 <=? Z.of_nat (length pre)) with true by (symmetry; apply Z.leb_le; lia).
  by rewrite drop_app_length, cstring_app.
Qed.

Lemma GetString_at d pre s rest n :
  at_cursor d pre (s ++ x00 :: rest) ->
  x00 ∉ s ->
  GetString n d = POk s (moved n d).
Proof.
  intros Hat Hnin. unfold GetString, mbind, P_bind.
  by rewrite (string_at _ _ _ _ Hat Hnin).
Qed.

(** X11: GetString hands back the whole C string that starts at the
    cursor, whatever length it is asked for, and moves the cursor by the
    requested length: a string longer than the requested length comes back
    in full, and so does a shorter one. *)
Theorem GetString_whole_cstring d pre s rest n :
  at_cursor d pre (s ++ x00 :: rest) ->
  x00 ∉ s ->
  GetString n d = POk s (moved n d).
Proof. apply GetString_at. Qed.

Lemma moved_moved a b d : moved a (moved b d) = moved (b + a) d.
Proof. unfold moved. simpl. f_equal. lia. Qed.

Lemma GetNullTerminatedString_at d pre s rest :
  at_cursor d pre ((s ++ [x00]) ++ rest) ->
  x00 ∉ s ->
  GetNullTerminatedString d = POk s (moved (Z.of_nat (length s) + 1) d).
Proof.
  intros Hat Hnin. unfold GetNullTerminatedString, mbind, P_bind.
  rewrite <- app_assoc in Hat. simpl in Hat.
  by rewrite (string_at _ _ _ _ Hat Hnin).
Qed.

Lemma array_set_in a i v d :
  (i < length a)%nat ->
  array_set a (Z.of_nat i) v d = POk (<[i := v]> a) d.
Proof.
  intros Hi. unfold array_set.
  replace ((0 <=? Z.of_nat i) && (Z.of_nat i <? Z.of_nat (length a))) with true
    by (symmetry; apply andb_true_iff; split; [apply Z.leb_le | apply Z.ltb_lt]; lia).
  by rewrite Nat2Z.id.
Qed.

Ltac float_step Hat :=
  lazymatch type of Hat with
  | at_cursor ?d ?pre (?c ++ ?rest) =>
      rewrite (GetFloat_at d pre c rest Hat) by done;
      apply at_cursor_moved4 in Hat; [|done];
      cbn beta iota
  end.

(** X12: on a buffer that holds, from the cursor on, a 128-byte name field
    with a NUL in it, four bytes, a NUL-terminated tile name and ten
    floats, the Setup constructor returns: the name is the part of the
    field in front of its first NUL, the tile is the tile name, position,
    interest, roll, fov, nclip and fclip are the ten floats in file order,
    background and zbuffer stay empty, and the cursor has moved by 173
    bytes plus the length of the tile name, onto what follows. *)
Theorem Setup_ctor_layout d pre nm pad unknown tile
    p0 p1 p2 i0 i1 i2 roll fov nclip fclip rest :
  at_cursor d pre
    ((nm ++ x00 :: pad) ++ unknown ++ (tile ++ [x00]) ++
     p0 ++ p1 ++ p2 ++ i0 ++ i1 ++ i2 ++ roll ++ fov ++ nclip ++ fclip ++ rest) ->
  length (nm ++ x00 :: pad) = 128%nat ->
  x00 ∉ nm ->
  length unknown = 4%nat ->
  x00 ∉ tile ->
  Forall (fun c => length c = 4%nat)
    [p0; p1; p2; i0; i1; i2; roll; fov; nclip; fclip] ->
  Setup_ctor d =
    POk {| Setup_name := nm; Setup_tile := tile;
           Setup_background := []; Setup_zbuffer := [];
           Setup_position := float_of_bytes <$> [p0; p1; p2];
           Setup_interest := float_of_bytes <$> [i0; i1; i2];
           Setup_roll := float_of_bytes roll; Setup_fov := float_of_bytes fov;
           Setup_nclip := float_of_bytes nclip;
           Setup_fclip := float_of_bytes fclip |}
        (moved (173 + Z.of_nat (length tile)) d) /\
  exists pre', at_cursor (moved (173 + Z.of_nat (length tile)) d) pre' rest.
Proof.
  intros Hat Hname Hnm Hunk Htile Hfl.
  repeat (apply Forall_cons in Hfl as [? Hfl]).
  unfold Setup_ctor, mbind, P_bind.
  assert (GetString 128 d = POk nm (moved 128 d)) as ->.
  { eapply GetString_at; [|done].
    rewrite <- app_assoc in Hat. simpl in Hat. exact Hat. }
  apply at_cursor_moved in Hat. rewrite Hname in Hat.
  change (Z.of_nat 128) with 128 in Hat. cbn beta iota.
  rewrite (GetInt_at _ _ _ _ Hat) by done.
  apply at_cursor_moved4 in Hat; [|done]. cbn beta iota.
  rewrite (GetNullTerminatedString_at _ _ _ _ Hat) by done.
  apply at_cursor_moved in Hat. rewrite length_app in Hat. simpl length in Hat.
  replace (Z.of_nat (length tile + 1)) with (Z.of_nat (length tile) + 1) in Hat by lia.
  cbn beta iota.
  float_step Hat. rewrite (array_set_in _ 0) by (simpl; lia). cbn beta iota.
  float_step Hat. rewrite (array_set_in _ 1) by (simpl; lia). cbn beta iota.
  float_step Hat. rewrite (array_set_in _ 2) by (simpl; lia). cbn beta iota.
  float_step Hat. rewrite (array_set_in _ 0) by (simpl; lia). cbn beta iota.
  float_step Hat. rewrite (array_set_in _ 1) by (simpl; lia). cbn beta iota.
  float_step Hat. rewrite (array_set_in _ 2) by (simpl; lia). cbn beta iota.
  float_step Hat. float_step Hat. float_step Hat. float_step Hat.
  rewrite !moved_moved in *.
  match type of Hat with
  | at_cursor (moved ?n d) _ _ =>
      replace n with (173 + Z.of_nat (length tile)) in * by lia
  end.
  split; [reflexivity | eauto].
Qed.

(** ** The vertex array *)






Lemma array_get_in a i v d :
  a !! i = Some v -> array_get a (Z.of_nat i) d = POk v d.
Proof.
  intros Hi. unfold array_get.
  replace (0 <=? Z.of_nat i) with true by (symmetry; apply Z.leb_le; lia).
  by rewrite Nat2Z.id, Hi.
Qed.

Lemma length_concat_chunks (chunks : list (list byte)) :
  Forall (fun c => length c = 4%nat) chunks ->
  length (concat chunks) = (4 * length chunks)%nat.
Proof.
  induction 1 as [|c chunks Hc _ IH]; [done|].
  simpl. rewrite length_app, IH, Hc. lia.
Qed.

Lemma Sector_read_vertices_at n :
  forall i done junk chunks d pre rest,
    at_cursor d pre (concat chunks ++ rest) ->
    length chunks = (3 * n)%nat ->
    Forall (fun c => length c = 4%nat) chunks ->
    length done = (3 * i)%nat ->
    (3 * n <= length junk)%nat ->
    3 * (Z.of_nat i + Z.of_nat n) < 2 ^ 31 ->
    Sector_read_vertices n (Z.of_nat i) (done ++ junk) d =
      POk (done ++ (float_of_bytes <$> chunks) ++ drop (3 * n) junk)
          (moved (12 * Z.of_nat n) d).
Proof.
  change (2 ^ 31) with 2147483648.
  induction n as [|n IH]; intros i done junk chunks d pre rest Hat Hlen Hall Hdone Hjunk Hbound.
  - destruct chunks; [|done]. simpl. unfold mret, P_ret, moved.
    rewrite Z.add_0_r. by destruct d.
  - destruct chunks as [|c0 [|c1 [|c2 chunks]]]; try (simpl in Hlen; lia).
    destruct junk as [|j0 [|j1 [|j2 junk]]]; try (simpl in Hjunk; lia).
    apply Forall_cons in Hall as [H0 Hall].
    apply Forall_cons in Hall as [H1 Hall].
    apply Forall_cons in Hall as [H2 Hall].
    simpl concat in Hat. rewrite <- !app_assoc in Hat.
    assert (wrap int32 (3 * Z.of_nat i) = Z.of_nat (length done)) as Ei.
    { rewrite wrap_in_range; [lia|]. apply int32_in_range.
      change (2 ^ 31) with 2147483648. lia. }
    assert (forall j, 0 <= j < 3 ->
              wrap int32 (j + Z.of_nat (length done)) =
              Z.of_nat (length done + Z.to_nat j)) as Ej.
    { intros j Hj. rewrite wrap_in_range; [lia|]. apply int32_in_range.
      change (2 ^ 31) with 2147483648. lia. }
    assert (wrap int32 (Z.of_nat i + 1) = Z.of_nat (S i)) as Es.
    { rewrite wrap_in_range; [lia|]. apply int32_in_range.
      change (2 ^ 31) with 2147483648. lia. }
    cbn [Sector_read_vertices]. unfold mbind, P_bind.
    rewrite Ei, !Ej, Es by lia.
    rewrite (GetFloat_at _ _ _ _ Hat) by done.
    apply at_cursor_moved4 in Hat; [|done]. cbn beta iota.
    rewrite array_set_in by (rewrite length_app; simpl; lia).
    cbn beta iota. rewrite insert_app_r. cbn [Z.to_nat list_insert].
    rewrite (GetFloat_at _ _ _ _ Hat) by done.
    apply at_cursor_moved4 in Hat; [|done]. cbn beta iota.
    rewrite array_set_in by (rewrite length_app; simpl; lia).
    cbn beta iota. rewrite insert_app_r.
    rewrite (GetFloat_at _ _ _ _ Hat) by done.
    apply at_cursor_moved4 in Hat; [|done]. cbn beta iota.
    rewrite array_set_in by (rewrite length_app; simpl; lia).
    cbn beta iota. rewrite insert_app_r.
    change (<[Z.to_nat 0 := float_of_bytes c0]> (j0 :: j1 :: j2 :: junk))
      with (float_of_bytes c0 :: j1 :: j2 :: junk).
    change (<[Z.to_nat 1 := float_of_bytes c1]> (float_of_bytes c0 :: j1 :: j2 :: junk))
      with (float_of_bytes c0 :: float_of_bytes c1 :: j2 :: junk).
    change (<[Z.to_nat 2 := float_of_bytes c2]>
              (float_of_bytes c0 :: float_of_bytes c1 :: j2 :: junk))
      with (float_of_bytes c0 :: float_of_bytes c1 :: float_of_bytes c2 :: junk).
    replace (done ++ float_of_bytes c0 :: float_of_bytes c1 :: float_of_bytes c2 :: junk)
      with ((done ++ [float_of_bytes c0; float_of_bytes c1; float_of_bytes c2]) ++ junk)
      by (by rewrite <- app_assoc).
    erewrite IH; [| exact Hat | simpl in Hlen; lia | done
                  | rewrite length_app; simpl; lia | simpl in Hjunk; lia | lia].
    rewrite !moved_moved. f_equal.
    + rewrite <- app_assoc.
      replace (3 * S n)%nat with (S (S (S (3 * n))))%nat by lia. done.
    + f_equal. lia.
Qed.

Lemma array_get_at a i v d :
  0 <= i -> a !! Z.to_nat i = Some v -> array_get a i d = POk v d.
Proof.
  intros Hi Hv. unfold array_get.
  replace (0 <=? i) with true by (symmetry; apply Z.leb_le; lia).
  by rewrite Hv.
Qed.

Lemma sub_at_at a i j u v d :
  0 <= i -> 0 <= j ->
  a !! Z.to_nat i = Some u -> a !! Z.to_nat j = Some v ->
  sub_at a i j d = POk (fsub u v) d.
Proof.
  intros Hi Hj Hu Hv. unfold sub_at, mbind, P_bind.
  by rewrite (array_get_at _ _ _ _ Hi Hu), (array_get_at _ _ _ _ Hj Hv).
Qed.

Lemma Skip_moved n d : Skip n d = POk tt (moved n d).
Proof. reflexivity. Qed.

Ltac int_step Hat :=
  lazymatch type of Hat with
  | at_cursor ?d ?pre (?c ++ ?rest) =>
      rewrite (GetInt_at d pre c rest Hat) by done;
      apply at_cursor_moved4 in Hat; [|done];
      cbn beta iota
  end.

(** X14: on a buffer that holds, from the cursor on, a vertex count n of
    at least 2, 3n floats, a name length, a name field of that length with
    a NUL in it, an id, a visibility byte, a type, a count k, 4k bytes and
    a height, the Sector constructor returns (given the vertex array can be
    allocated): the fields are those of the file, the k words are passed
    over unread, the normal is derived from the first, the second and the
    last vertex, and the cursor has moved by 25 + 12n + name length + 4k
    bytes, onto what follows. *)
Theorem Sector_ctor_layout d pre nvb vchunks nlb nm pad idb visb typeb skipb
    skipped hb rest (n k : nat) :
  at_cursor d pre
    (nvb ++ concat vchunks ++ nlb ++ (nm ++ x00 :: pad) ++ idb ++ visb ++
     typeb ++ skipb ++ skipped ++ hb ++ rest) ->
  length nvb = 4%nat -> int_of_bytes nvb = Z.of_nat n ->
  (2 <= n)%nat -> 3 * Z.of_nat n < 2 ^ 31 -> new_ok (3 * Z.of_nat n) = true ->
  length vchunks = (3 * n)%nat ->
  Forall (fun c => length c = 4%nat) vchunks ->
  length nlb = 4%nat ->
  int_of_bytes nlb = Z.of_nat (length (nm ++ x00 :: pad)) ->
  x00 ∉ nm ->
  length idb = 4%nat -> length visb = 1%nat -> length typeb = 4%nat ->
  length skipb = 4%nat -> int_of_bytes skipb = Z.of_nat k ->
  4 * Z.of_nat k < 2 ^ 31 ->
  length skipped = (4 * k)%nat ->
  length hb = 4%nat ->
  let V := float_of_bytes <$> vchunks in
  let total := 25 + 12 * Z.of_nat n + Z.of_nat (length (nm ++ x00 :: pad)) +
               4 * Z.of_nat k in
  exists p q r,
    vertex V 0 = Some p /\ vertex V 1 = Some q /\ vertex V (n - 1) = Some r /\
    Sector_ctor d =
      POk {| Sector_name := nm; Sector_ID := int_of_bytes idb;
             Sector_type := int_of_bytes typeb;
             Sector_height := float_of_bytes hb;
             Sector_numVertices := Z.of_nat n;
             Sector_vertices := V;
             Sector_normal := normal3 p q r;
             Sector_visible := bool_of_bytes visb |}
          (moved total d) /\
    exists pre', at_cursor (moved total d) pre' rest.
Proof.
  change (2 ^ 31) with 2147483648.
  intros Hat Hnvb Hnv Hn Hn3 Hnew Hvlen Hvall Hnlb Hnl Hnm Hidb Hvisb Htypeb
    Hskipb Hskip Hk Hskipped Hhb V total.
  assert (length V = (3 * n)%nat) as HV by (unfold V; by rewrite length_fmap).
  assert (forall i, (i < 3 * n)%nat -> is_Some (V !! i)) as Hsome.
  { intros i Hi. apply lookup_lt_is_Some. lia. }
  destruct (Hsome 0%nat) as [v0 Hv0]; [lia|].
  destruct (Hsome 1%nat) as [v1 Hv1]; [lia|].
  destruct (Hsome 2%nat) as [v2 Hv2]; [lia|].
  destruct (Hsome 3%nat) as [v3 Hv3]; [lia|].
  destruct (Hsome 4%nat) as [v4 Hv4]; [lia|].
  destruct (Hsome 5%nat) as [v5 Hv5]; [lia|].
  destruct (Hsome (3 * (n - 1))%nat) as [x0 Hx0]; [lia|].
  destruct (Hsome (3 * (n - 1) + 1)%nat) as [x1 Hx1]; [lia|].
  destruct (Hsome (3 * (n - 1) + 2)%nat) as [x2 Hx2]; [lia|].
  exists (v0, v1, v2), (v3, v4, v5), (x0, x1, x2).
  split; [unfold vertex; simpl; by rewrite Hv0, Hv1, Hv2|].
  split; [unfold vertex; simpl; by rewrite Hv3, Hv4, Hv5|].
  split; [unfold vertex; by rewrite Hx0, Hx1, Hx2|].
  unfold Sector_ctor, mbind, P_bind.
  int_step Hat. rewrite Hnv.
  rewrite (wrap_in_range int32 (3 * Z.of_nat n))
    by (apply int32_in_range; change (2 ^ 31) with 2147483648; lia).
  unfold new_float_array at 1.
  replace (3 * Z.of_nat n <? 0) with false by (symmetry; apply Z.ltb_ge; lia).
  rewrite Hnew. cbn beta iota. rewrite Nat2Z.id.
  set (junk := junk_float <$> seq 0 (Z.to_nat (3 * Z.of_nat n))).
  assert (length junk = (3 * n)%nat) as Hjunk.
  { unfold junk. rewrite length_fmap, length_seq. lia. }
  pose proof (Sector_read_vertices_at n 0 [] junk vchunks _ _ _ Hat Hvlen Hvall) as Hloop.
  simpl app in Hloop. change (Z.of_nat 0) with 0 in Hloop.
  rewrite Hloop; [| simpl; lia | lia | change (2 ^ 31) with 2147483648; lia].
  clear Hloop. rewrite drop_ge by lia. rewrite app_nil_r.
  fold V. cbn beta iota.
  apply at_cursor_moved in Hat. rewrite (length_concat_chunks _ Hvall), Hvlen in Hat.
  replace (Z.of_nat (4 * (3 * n))) with (12 * Z.of_nat n) in Hat by lia.
  int_step Hat. rewrite Hnl.
  pose proof Hat as Hat'. rewrite <- (app_assoc nm) in Hat'. cbn [app] in Hat'.
  rewrite (GetString_at _ _ _ _ _ Hat' Hnm). clear Hat'.
  apply at_cursor_moved in Hat. cbn beta iota.
  int_step Hat.
  rewrite (GetBool_at _ _ _ _ Hat) by done.
  apply at_cursor_moved in Hat. rewrite Hvisb in Hat.
  change (Z.of_nat 1) with 1 in Hat. cbn beta iota.
  int_step Hat. int_step Hat. rewrite Hskip.
  rewrite (wrap_in_range int32 (Z.of_nat k * 4))
    by (apply int32_in_range; change (2 ^ 31) with 2147483648; lia).
  rewrite Skip_moved. cbn beta iota.
  apply at_cursor_moved in Hat. rewrite Hskipped in Hat.
  replace (Z.of_nat (4 * k)) with (Z.of_nat k * 4) in Hat by lia.
  rewrite (GetFloat_at _ _ _ _ Hat) by done.
  apply at_cursor_moved4 in Hat; [|done]. cbn beta iota.
  assert (wrap int32 (3 * wrap int32 (Z.of_nat n - 1)) = Z.of_nat (3 * (n - 1)))
    as Ex.
  { rewrite (wrap_in_range int32 (Z.of_nat n - 1))
      by (apply int32_in_range; change (2 ^ 31) with 2147483648; lia).
    rewrite wrap_in_range
      by (apply int32_in_range; change (2 ^ 31) with 2147483648; lia).
    lia. }
  rewrite Ex.
  rewrite !(wrap_in_range int32 (Z.of_nat (3 * (n - 1)) + _))
    by (apply int32_in_range; change (2 ^ 31) with 2147483648; lia).
  rewrite (sub_at_at V 3 0 v3 v0) by (done || lia). cbn beta iota.
  rewrite (sub_at_at V 4 1 v4 v1) by (done || lia). cbn beta iota.
  rewrite (sub_at_at V 5 2 v5 v2) by (done || lia). cbn beta iota.
  rewrite (sub_at_at V _ 0 x0 v0)
    by (done || lia || (rewrite Z.add_0_r, Nat2Z.id; done)).
  cbn beta iota.
  rewrite (sub_at_at V _ 1 x1 v1)
    by (done || lia ||
        (replace (Z.to_nat (Z.of_nat (3 * (n - 1)) + 1)) with (3 * (n - 1) + 1)%nat
           by lia; done)).
  cbn beta iota.
  rewrite (sub_at_at V _ 2 x2 v2)
    by (done || lia ||
        (replace (Z.to_nat (Z.of_nat (3 * (n - 1)) + 2)) with (3 * (n - 1) + 2)%nat
           by lia; done)).
  cbn beta iota.
  rewrite !moved_moved in *.
  match type of Hat with
  | at_cursor (moved ?m d) _ _ => replace m with total in * by (unfold total; lia)
  end.
  split; [reflexivity | eauto].
Qed.

(** ** The three vectors of a set *)

Lemma push_back_new_length {T} (ctor : P T) n :
  forall v v' d d',
    push_back_new ctor n v d = POk v' d' -> length v' = (length v + n)%nat.
Proof.
  induction n as [|n IH]; intros v v' d d'; simpl.
  - intros [= <- _]. lia.
  - intros (x & d1 & _ & H)%pbind_POk. apply IH in H.
    rewrite length_app in H. simpl in H. lia.
Qed.

Lemma push_back_new_lights n :
  forall v v' d d',
    push_back_new Light_ctor n v d = POk v' d' ->
    v' = v ++ replicate n {| Light_name := [] |} /\
    d' = moved (100 * Z.of_nat n) d.
Proof.
  induction n as [|n IH]; intros v v' d d'; simpl.
  - intros [= <- <-]. rewrite app_nil_r. split; [done|].
    unfold moved. rewrite Z.add_0_r. by destruct d.
  - intros (x & d1 & Hx & H)%pbind_POk.
    injection Hx as <- <-.
    apply IH in H as [-> ->]. split.
    + by rewrite <- app_assoc.
    + unfold moved. simpl. f_equal. lia.
Qed.

Lemma GetInt_POk n d d1 :
  GetInt d = POk n d1 ->
  exists bs, peek 4 d = POk bs d /\ n = int_of_bytes bs /\ d1 = moved 4 d.
Proof.
  unfold GetInt. intros (bs & d0 & Hpeek & Hrest)%pbind_POk.
  assert (d0 = d) as ->.
  { unfold peek in Hpeek. case_match; [|done]. by injection Hpeek as _ <-. }
  injection Hrest as <- <-. eauto.
Qed.

Lemma reserve_POk n u d d' : reserve n d = POk u d' -> d' = d.
Proof. unfold reserve. case_match; [|done]. by intros [= _ <-]. Qed.

(** X15: whenever the Set constructor returns, it has read three counts
    from the buffer, each the int at the cursor taken as an unsigned
    32-bit number: the setup count at the start, followed by that many
    setups; the light count right after the setups, followed by 100 bytes
    per light that the cursor passes without any of them being read; the
    sector count right after those, followed by that many sectors, behind
    which the cursor ends. The three vectors hold exactly as many entries
    as the counts say, every light is empty, and the set has neither a
    name nor colormaps. *)
Theorem Set_ctor_counts d s d' :
  Set_ctor d = POk s d' ->
  exists b1 b2 b3 d1,
    let d2 := moved (100 * Set_numLights s) (moved 4 d1) in
    peek 4 d = POk b1 d /\
    Set_numSetups s = wrap uint32 (int_of_bytes b1) /\
    push_back_new Setup_ctor (Z.to_nat (Set_numSetups s)) [] (moved 4 d)
      = POk (Set_setups s) d1 /\
    peek 4 d1 = POk b2 d1 /\
    Set_numLights s = wrap uint32 (int_of_bytes b2) /\
    push_back_new Light_ctor (Z.to_nat (Set_numLights s)) [] (moved 4 d1)
      = POk (Set_lights s) d2 /\
    Set_lights s = replicate (Z.to_nat (Set_numLights s)) {| Light_name := [] |} /\
    peek 4 d2 = POk b3 d2 /\
    Set_numSectors s = wrap uint32 (int_of_bytes b3) /\
    push_back_new Sector_ctor (Z.to_nat (Set_numSectors s)) [] (moved 4 d2)
      = POk (Set_sectors s) d' /\
    Z.of_nat (length (Set_setups s)) = Set_numSetups s /\
    Z.of_nat (length (Set_lights s)) = Set_numLights s /\
    Z.of_nat (length (Set_sectors s)) = Set_numSectors s /\
    Set_setName s = [] /\ Set_colormaps s = [].
Proof.
  unfold Set_ctor.
  intros (n1 & ? & (b1 & Hb1 & -> & ->)%GetInt_POk & H)%pbind_POk.
  apply pbind_POk in H as ([] & ? & ->%reserve_POk & H).
  apply pbind_POk in H as (setups & d1 & Hsetups & H).
  apply pbind_POk in H as (n2 & ? & (b2 & Hb2 & -> & ->)%GetInt_POk & H).
  apply pbind_POk in H as ([] & ? & ->%reserve_POk & H).
  apply pbind_POk in H as (lights & d2 & Hlights & H).
  apply pbind_POk in H as (n3 & ? & (b3 & Hb3 & -> & ->)%GetInt_POk & H).
  apply pbind_POk in H as ([] & ? & ->%reserve_POk & H).
  apply pbind_POk in H as (sectors & d3 & Hsectors & H).
  injection H as <- <-.
  pose proof (push_back_new_lights _ _ _ _ _ Hlights) as [Hl Hd2].
  simpl app in Hl.
  pose proof (wrap_range uint32 (int_of_bytes b1)) as R1.
  pose proof (wrap_range uint32 (int_of_bytes b2)) as R2.
  pose proof (wrap_range uint32 (int_of_bytes b3)) as R3.
  unfold in_range in R1, R2, R3. simpl in R1, R2, R3.
  rewrite Z2Nat.id in Hd2 by lia. subst d2.
  exists b1, b2, b3, d1. cbn zeta. cbn [Set_numSetups Set_numLights Set_numSectors
    Set_setups Set_lights Set_sectors Set_setName Set_colormaps].
  apply push_back_new_length in Hsetups as Hlen1.
  apply push_back_new_length in Hsectors as Hlen3.
  simpl length in Hlen1, Hlen3.
  repeat (split; [first [done | lia | by rewrite Hl, length_replicate, Z2Nat.id by lia]|]).
  done.
Qed.

End Setb2set.

Arguments POk {A} a d.
Arguments PThrow {A}.
Arguments PUndefined {A}.

(** * The reader's statements on concrete buffers

    Floats are kept as their four bytes, float arithmetic keeps its first
    argument, ints are read little-endian in two's complement, every
    allocation succeeds. *)

Definition demo_float : Type := list byte.

Definition demo_fop (a b : demo_float) : demo_float := a.

Definition le_int (bs : list byte) : Z :=
  wrap int32 (foldr (fun b acc => Z.of_N (Byte.to_N b) + 256 * acc) 0 bs).

Definition demo_bool (bs : list byte) : bool :=
  match bs with
  | [b] => negb (Byte.eqb b x00)
  | _ => true
  end.

Definition demo_Setup_ctor : P (Setup demo_float) :=
  Setup_ctor demo_float id le_int (fun _ => []).

Definition demo_Sector_ctor : P (Sector demo_float) :=
  Sector_ctor demo_float id le_int demo_bool demo_fop demo_fop demo_fop demo_fop
    id (fun _ => true) (fun _ => []).

Definition demo_Set_ctor : P (Set_ demo_float) :=
  Set_ctor demo_float id le_int demo_bool demo_fop demo_fop demo_fop demo_fop
    id (fun _ => true) (fun _ => []) (fun _ => true).

(** A string of three characters read with a requested length of 1. *)
Definition demo_string_data : Data :=
  {| bytes := [] ++ [x41; x42; x43] ++ x00 :: [x44]; buf := 0 |}.

(** One setup: name "S1" in a field of 128 bytes, tile "t". *)
Definition demo_setup_data : Data :=
  {| bytes :=
       [] ++
       ([x53; x31] ++ x00 :: replicate 125 x00) ++ [x07; x00; x00; x00] ++
       ([x74] ++ [x00]) ++
       [x01; x00; x00; x00] ++ [x02; x00; x00; x00] ++ [x03; x00; x00; x00] ++
       [x04; x00; x00; x00] ++ [x05; x00; x00; x00] ++ [x06; x00; x00; x00] ++
       [x07; x00; x00; x00] ++ [x08; x00; x00; x00] ++ [x09; x00; x00; x00] ++
       [x0a; x00; x00; x00] ++ [];
     buf := 0 |}.

(** One sector with two vertices, name "A" in a field of 2 bytes, one
    skipped word. *)
Definition demo_sector_chunks : list (list byte) :=
  [ [x01; x00; x00; x00]; [x02; x00; x00; x00]; [x03; x00; x00; x00];
    [x04; x00; x00; x00]; [x05; x00; x00; x00]; [x06; x00; x00; x00] ].

Definition demo_sector_data : Data :=
  {| bytes :=
       [] ++
       [x02; x00; x00; x00] ++ concat demo_sector_chunks ++
       [x02; x00; x00; x00] ++ ([x41] ++ x00 :: []) ++
       [x09; x00; x00; x00] ++ [x01] ++ [x00; x10; x00; x00] ++
       [x01; x00; x00; x00] ++ [xff; xff; xff; xff] ++
       [x0b; x00; x00; x00] ++ [];
     buf := 0 |}.


(** A set with no setup, two lights and no sector. *)
Definition demo_set_data : Data :=
  {| bytes :=
       [x00; x00; x00; x00] ++ [x02; x00; x00; x00] ++ replicate 200 x55 ++
       [x00; x00; x00; x00];
     buf := 0 |}.

Ltac byte_notin :=
  let H := fresh in
  intros H;
  repeat (apply elem_of_cons in H as [H|H]; [discriminate H|]);
  by apply not_elem_of_nil in H.

Lemma GetString_whole_cstring_witness :
  GetString 1 demo_string_data = POk [x41; x42; x43] (moved 1 demo_string_data).
Proof.
  apply (GetString_whole_cstring demo_string_data [] [x41; x42; x43] [x44] 1).
  - split; reflexivity.
  - byte_notin.
Defined.

Lemma Setup_ctor_layout_witness :
  demo_Setup_ctor demo_setup_data =
  POk {| Setup_name := [x53; x31]; Setup_tile := [x74];
         Setup_background := []; Setup_zbuffer := [];
         Setup_position :=
           [[x01; x00; x00; x00]; [x02; x00; x00; x00]; [x03; x00; x00; x00]];
         Setup_interest :=
           [[x04; x00; x00; x00]; [x05; x00; x00; x00]; [x06; x00; x00; x00]];
         Setup_roll := [x07; x00; x00; x00]; Setup_fov := [x08; x00; x00; x00];
         Setup_nclip := [x09; x00; x00; x00];
         Setup_fclip := [x0a; x00; x00; x00] |}
      (moved 174 demo_setup_data).
Proof.
  destruct (Setup_ctor_layout demo_float id le_int (fun _ => []) demo_setup_data
              [] [x53; x31] (replicate 125 x00) [x07; x00; x00; x00] [x74]
              [x01; x00; x00; x00] [x02; x00; x00; x00] [x03; x00; x00; x00]
              [x04; x00; x00; x00] [x05; x00; x00; x00] [x06; x00; x00; x00]
              [x07; x00; x00; x00] [x08; x00; x00; x00] [x09; x00; x00; x00]
              [x0a; x00; x00; x00] []) as [Hres _].
  - split; reflexivity.
  - reflexivity.
  - byte_notin.
  - reflexivity.
  - byte_notin.
  - repeat constructor.
  - exact Hres.
Defined.



Lemma Sector_ctor_layout_witness :
  demo_Sector_ctor demo_sector_data =
  POk {| Sector_name := [x41]; Sector_ID := 9; Sector_type := 4096;
         Sector_height := [x0b; x00; x00; x00];
         Sector_numVertices := 2;
         Sector_vertices := demo_sector_chunks;
         Sector_normal :=
           normal3 demo_float demo_fop demo_fop demo_fop demo_fop id
             ([x01; x00; x00; x00], [x02; x00; x00; x00], [x03; x00; x00; x00])
             ([x04; x00; x00; x00], [x05; x00; x00; x00], [x06; x00; x00; x00])
             ([x04; x00; x00; x00], [x05; x00; x00; x00], [x06; x00; x00; x00]);
         Sector_visible := true |}
      (moved 55 demo_sector_data).
Proof.
  destruct (Sector_ctor_layout demo_float id le_int demo_bool
              demo_fop demo_fop demo_fop demo_fop id (fun _ => true) (fun _ => [])
              demo_sector_data [] [x02; x00; x00; x00] demo_sector_chunks
              [x02; x00; x00; x00] [x41] [] [x09; x00; x00; x00] [x01]
              [x00; x10; x00; x00] [x01; x00; x00; x00] [xff; xff; xff; xff]
              [x0b; x00; x00; x00] [] 2%nat 1%nat)
    as (p & q & r & Hp & Hq & Hr & Hres & _).
  - split; reflexivity.
  - reflexivity.
  - reflexivity.
  - lia.
  - reflexivity.
  - reflexivity.
  - reflexivity.
  - repeat constructor.
  - reflexivity.
  - reflexivity.
  - byte_notin.
  - reflexivity.
  - reflexivity.
  - reflexivity.
  - reflexivity.
  - reflexivity.
  - reflexivity.
  - reflexivity.
  - reflexivity.
  - injection Hp as <-. injection Hq as <-. injection Hr as <-. exact Hres.
Defined.

Lemma demo_set_parsed :
  exists s d', demo_Set_ctor demo_set_data = POk s d'.
Proof. vm_compute. eauto. Defined.

Lemma Set_ctor_counts_witness :
  exists s d' b2 d1,
    demo_Set_ctor demo_set_data = POk s d' /\
    peek 4 d1 = POk b2 d1 /\
    Set_numLights demo_float s = wrap uint32 (le_int b2) /\
    push_back_new (Light_ctor) (Z.to_nat (Set_numLights demo_float s)) []
      (moved 4 d1)
      = POk (Set_lights demo_float s)
          (moved (100 * Set_numLights demo_float s) (moved 4 d1)) /\
    Set_lights demo_float s =
      replicate (Z.to_nat (Set_numLights demo_float s)) {| Light_name := [] |} /\
    Z.of_nat (length (Set_setups demo_float s)) = Set_numSetups demo_float s.
Proof.
  destruct demo_set_parsed as (s & d' & Hrun).
  destruct (Set_ctor_counts demo_float id le_int demo_bool
              demo_fop demo_fop demo_fop demo_fop id (fun _ => true)
              (fun _ => []) (fun _ => true) demo_set_data s d' Hrun)
    as (b1 & b2 & b3 & d1 & _ & _ & _ & Hb2 & Hn2 & Hloop & Hlights & _ & _ & _
        & Hsetups & _).
  exists s, d', b2, d1. split; [exact Hrun|]. split; [exact Hb2|].
  split; [exact Hn2|]. split; [exact Hloop|]. split; [exact Hlights | exact Hsetups].
Defined.
